(** * Move generation, legality filter and evaluation of chess pieces

    A shallow embedding of [pieces.py]: the per-kind reachable-cell
    generators, the legality filter [get_valid_cells] and the numeric
    [evaluate], together with the properties the specification states
    about them.

    Python integers are [Z], cells are pairs of integers, Python floats are
    IEEE binary64 numbers (Rocq's primitive [float]).  A method either
    returns, raises an exception, or (for the [while True] ray loops) needs
    more iterations than the fuel it was given.

    The Board class the pieces talk to is not part of [pieces.py].  Its
    store and its [get_cell] and [set_cell] are modelled from the
    specification; its predicates are parameters of the development, and
    the module [Standard] gives an 8 by 8 instance to run the code on. *)

From Stdlib Require Import ZArith List PrimFloat Uint63.
From stdpp Require Import base option list gmap strings.
Import ListNotations.

Local Open Scope Z_scope.

(** ** Outcomes of a call *)

(** The exceptions that occur in the module.  All of them are instances of
    Python's [Exception] class, which is what the [except Exception]
    clauses of [evaluate] name. *)
Inductive exn : Type :=
| TypeError (msg : string)
| UnboundLocalError (var : string)
| BoardQueryFailure (msg : string).

Inductive outcome (A : Type) : Type :=
| Ok (a : A)
| Raise (e : exn)
| OutOfFuel.
Arguments Ok {A} a.
Arguments Raise {A} e.
Arguments OutOfFuel {A}.

#[global] Instance outcome_ret : MRet outcome := fun A a => Ok a.
#[global] Instance outcome_bind : MBind outcome := fun A B f m =>
  match m with
  | Ok a => f a
  | Raise e => Raise e
  | OutOfFuel => OutOfFuel
  end.

(** [try: body except Exception: handler].  Running out of fuel is not an
    exception and is not caught. *)
Definition try_except {A} (body : outcome A) (handler : exn -> outcome A) : outcome A :=
  match body with
  | Raise e => handler e
  | o => o
  end.

(** ** Pieces, cells and the board *)

Abbreviation Cell := (Z * Z)%type.

Inductive Kind : Type := Pawn | Rook | Knight | Bishop | Queen | King.

(** A piece object: its identity, its class and its colour.  The mutable
    attribute [cell] lives in the store ([piece_cell] below), because the
    board and the piece's callers share the object. *)
Record Piece : Type := mkPiece { pid : nat; kind : Kind; white : bool }.

#[global] Instance Kind_eq_dec : EqDecision Kind.
Proof. solve_decision. Defined.

#[global] Instance Piece_eq_dec : EqDecision Piece.
Proof. solve_decision. Defined.

Definition Kind_code (k : Kind) : nat :=
  match k with
  | Pawn => 0 | Rook => 1 | Knight => 2 | Bishop => 3 | Queen => 4 | King => 5
  end%nat.

Definition Kind_decode (n : nat) : Kind :=
  match n with
  | 0 => Pawn | 1 => Rook | 2 => Knight | 3 => Bishop | 4 => Queen | _ => King
  end%nat.

#[global] Instance Piece_countable : Countable Piece.
Proof.
  refine (inj_countable'
            (fun p => (pid p, Kind_code (kind p), white p))
            (fun t => mkPiece t.1.1 (Kind_decode t.1.2) t.2) _).
  intros [i k b]. destruct k; reflexivity.
Defined.

(** [self.__class__.__name__] *)
Definition class_name (p : Piece) : string :=
  match kind p with
  | Pawn => "Pawn" | Rook => "Rook" | Knight => "Knight"
  | Bishop => "Bishop" | Queen => "Queen" | King => "King"
  end.

Definition is_white (p : Piece) : bool := white p.

(** Modelled from the spec: the storage of the Board collaborator, which is
    not part of [pieces.py].  The board maps cells to their occupant, and
    every piece object carries its current cell ("nullable until placed"):
    an absent entry of [piece_cell] is a [cell] attribute equal to [None]. *)
Record World : Type := mkWorld {
  cells : gmap Cell Piece;
  piece_cell : gmap Piece Cell
}.

(** Modelled from the spec: [get_cell(cell) -> occupant_or_none] of the
    Board collaborator. *)
Definition get_cell (w : World) (cell : Cell) : option Piece := cells w !! cell.

(** Modelled from the spec: [set_cell(cell, occupant_or_none)] of the Board
    collaborator, the "relocation/restoration primitive": it writes the
    occupant into the cell and, as a relocation, reassigns the cell of the
    piece it places ("Piece instances are ... mutated only by relocation
    (cell reassignment) during real moves or during the legality filter's
    temporary simulate/restore cycle").  It does not clear any other cell. *)
Definition set_cell (w : World) (cell : Cell) (piece : option Piece) : World :=
  {| cells := partial_alter (fun _ => piece) cell (cells w);
     piece_cell := match piece with
                   | Some q => <[q := cell]> (piece_cell w)
                   | None => piece_cell w
                   end |}.

(** The remaining operations of the Board collaborator are taken as they
    come: any functions of the board state that answer with a boolean or
    with an exception.  They read the board and leave it as it is; the cache
    behind [is_king_check_cached] is the collaborator's own business and is
    not part of the board state. *)
Inductive answer (A : Type) : Type :=
| Returns (a : A)
| Raises (e : exn).
Arguments Returns {A} a.
Arguments Raises {A} e.

Definition call {A} (a : answer A) : outcome A :=
  match a with
  | Returns x => Ok x
  | Raises e => Raise e
  end.

Record Board : Type := mkBoard {
  board_cell_is_valid_and_empty : World -> Cell -> answer bool;
  board_piece_can_enter_cell : World -> Piece -> Cell -> answer bool;
  board_piece_can_hit_on_cell : World -> Piece -> Cell -> answer bool;
  board_is_king_check_cached : World -> bool -> answer bool
}.

(** ** The movement generators *)

Section Movement.

Variable board : Board.

Definition cell_is_valid_and_empty (w : World) (cell : Cell) : outcome bool :=
  call (board_cell_is_valid_and_empty board w cell).

Definition can_enter_cell (w : World) (self : Piece) (cell : Cell) : outcome bool :=
  call (board_piece_can_enter_cell board w self cell).

Definition can_hit_on_cell (w : World) (self : Piece) (cell : Cell) : outcome bool :=
  call (board_piece_can_hit_on_cell board w self cell).

(** [r, c = self.cell]: unpacking [None] raises a [TypeError]. *)
Definition unpack_cell (w : World) (self : Piece) : outcome Cell :=
  match piece_cell w !! self with
  | Some rc => Ok rc
  | None => Raise (TypeError "cannot unpack non-iterable NoneType object")
  end.

(** [for x in xs: body] over an accumulated local state. *)
Fixpoint for_each {A S : Type} (xs : list A) (body : A -> S -> outcome S) (s : S)
  : outcome S :=
  match xs with
  | [] => Ok s
  | x :: xs' => s' ← body x s; for_each xs' body s'
  end.

(** [a or b] on two board queries, with Python's short circuit. *)
Definition or_else (a : outcome bool) (b : outcome bool) : outcome bool :=
  x ← a; if x : bool then Ok true else b.

Definition Pawn_get_reachable_cells (w : World) (self : Piece) : outcome (list Cell) :=
  rc ← unpack_cell w self;
  let '(r, c) := rc in
  let reachable : list Cell := [] in
  let direction := if is_white self then 1 else -1 in
  let start_row := if is_white self then 1 else 6 in
  let one_step := (r + direction, c) in
  e1 ← cell_is_valid_and_empty w one_step;
  reachable ←
    (if e1 : bool then
       let reachable := reachable ++ [one_step] in
       let two_step := (r + 2 * direction, c) in
       if r =? start_row then
         e2 ← cell_is_valid_and_empty w two_step;
         Ok (if e2 : bool then reachable ++ [two_step] else reachable)
       else Ok reachable
     else Ok reachable);
  let diag_left := (r + direction, c - 1) in
  let diag_right := (r + direction, c + 1) in
  hl ← can_hit_on_cell w self diag_left;
  let reachable := if hl : bool then reachable ++ [diag_left] else reachable in
  hr ← can_hit_on_cell w self diag_right;
  let reachable := if hr : bool then reachable ++ [diag_right] else reachable in
  Ok reachable.

(** The [while True] loop of the sliding pieces, one iteration per unit of
    fuel, from the cell [(nr, nc)] on. *)
Fixpoint ray_loop (fuel : nat) (w : World) (self : Piece) (dr dc nr nc : Z)
         (reachable : list Cell) : outcome (list Cell) :=
  match fuel with
  | O => OutOfFuel
  | S fuel' =>
      let cell := (nr, nc) in
      e ← cell_is_valid_and_empty w cell;
      if e : bool then
        ray_loop fuel' w self dr dc (nr + dr) (nc + dc) (reachable ++ [cell])
      else
        h ← can_hit_on_cell w self cell;
        if h : bool then Ok (reachable ++ [cell]) else Ok reachable
  end.

(** The body shared by the three sliding classes: the [for dr, dc in
    directions] loop around the ray loop. *)
Definition slide (fuel : nat) (w : World) (self : Piece) (directions : list (Z * Z))
  : outcome (list Cell) :=
  rc ← unpack_cell w self;
  let '(r, c) := rc in
  for_each directions
    (fun d reachable => ray_loop fuel w self d.1 d.2 (r + d.1) (c + d.2) reachable)
    [].

Definition Rook_directions : list (Z * Z) := [(-1, 0); (1, 0); (0, -1); (0, 1)].
Definition Bishop_directions : list (Z * Z) := [(-1, -1); (-1, 1); (1, -1); (1, 1)].
Definition Queen_directions : list (Z * Z) :=
  [(-1, 0); (1, 0); (0, -1); (0, 1); (-1, -1); (-1, 1); (1, -1); (1, 1)].

Definition Rook_get_reachable_cells fuel w self := slide fuel w self Rook_directions.
Definition Bishop_get_reachable_cells fuel w self := slide fuel w self Bishop_directions.
Definition Queen_get_reachable_cells fuel w self := slide fuel w self Queen_directions.

(** The loop body shared by Knight and King: enter or hit. *)
Definition step_to (w : World) (self : Piece) (r c : Z) (d : Z * Z)
           (reachable : list Cell) : outcome (list Cell) :=
  let cell := (r + d.1, c + d.2) in
  b ← or_else (can_enter_cell w self cell) (can_hit_on_cell w self cell);
  Ok (if b : bool then reachable ++ [cell] else reachable).

Definition Knight_jumps : list (Z * Z) :=
  [(2, 1); (2, -1); (-2, 1); (-2, -1); (1, 2); (1, -2); (-1, 2); (-1, -2)].

Definition Knight_get_reachable_cells (w : World) (self : Piece) : outcome (list Cell) :=
  rc ← unpack_cell w self;
  let '(r, c) := rc in
  for_each Knight_jumps (step_to w self r c) [].

Definition King_get_reachable_cells (w : World) (self : Piece) : outcome (list Cell) :=
  rc ← unpack_cell w self;
  let '(r, c) := rc in
  for_each [-1; 0; 1]
    (fun dr reachable =>
       for_each [-1; 0; 1]
         (fun dc reachable =>
            if (dr =? 0) && (dc =? 0) then Ok reachable
            else step_to w self r c (dr, dc) reachable)
         reachable)
    [].

(** Method dispatch on the class of the piece. *)
Definition get_reachable_cells (fuel : nat) (w : World) (self : Piece)
  : outcome (list Cell) :=
  match kind self with
  | Pawn => Pawn_get_reachable_cells w self
  | Rook => Rook_get_reachable_cells fuel w self
  | Knight => Knight_get_reachable_cells w self
  | Bishop => Bishop_get_reachable_cells fuel w self
  | Queen => Queen_get_reachable_cells fuel w self
  | King => King_get_reachable_cells w self
  end.

End Movement.

(** ** The legality filter *)

(** The calls [get_valid_cells] itself makes on the board. *)
Inductive BoardCall : Type :=
| CallGetCell (cell : Cell)
| CallSetCell (cell : Cell) (piece : option Piece)
| CallIsKingCheck (white : bool).

(** A run of board-mutating code: the board it leaves behind (also when it
    raises), the calls it made in order, each with the board state in which
    the call ended, and its outcome. *)
Record Run (A : Type) : Type := mkRun {
  final : World;
  trace : list (BoardCall * World);
  result : outcome A
}.
Arguments mkRun {A} final trace result.
Arguments final {A} r.
Arguments trace {A} r.
Arguments result {A} r.

Definition Sim (A : Type) : Type := World -> Run A.

#[global] Instance Sim_ret : MRet Sim := fun A a w => mkRun w [] (Ok a).
#[global] Instance Sim_bind : MBind Sim := fun A B f m w =>
  let r := m w in
  match result r with
  | Ok a => let r' := f a (final r) in
            mkRun (final r') (trace r ++ trace r') (result r')
  | Raise e => mkRun (final r) (trace r) (Raise e)
  | OutOfFuel => mkRun (final r) (trace r) OutOfFuel
  end.

(** Code that only reads the board. *)
Definition query {A} (f : World -> outcome A) : Sim A :=
  fun w => mkRun w [] (f w).

Definition board_get_cell (cell : Cell) : Sim (option Piece) :=
  fun w => mkRun w [(CallGetCell cell, w)] (Ok (get_cell w cell)).

Definition board_set_cell (cell : Cell) (piece : option Piece) : Sim unit :=
  fun w => let w' := set_cell w cell piece in
           mkRun w' [(CallSetCell cell piece, w')] (Ok tt).

(** [set_cell(old_cell, self)] where [old_cell] was read from the nullable
    attribute: indexing [None] raises. *)
Definition board_set_cell_at (cell : option Cell) (piece : option Piece) : Sim unit :=
  match cell with
  | Some c => board_set_cell c piece
  | None => query (fun _ => Raise (TypeError "'NoneType' object is not subscriptable"))
  end.

Section Filter.

Variable board : Board.

Definition is_king_check_cached (white : bool) : Sim bool :=
  fun w => mkRun w [(CallIsKingCheck white, w)]
                 (call (board_is_king_check_cached board w white)).

(** The [for target in reachable] loop. *)
Fixpoint valid_loop (self : Piece) (old_cell : option Cell) (targets : list Cell)
         (valid : list Cell) : Sim (list Cell) :=
  match targets with
  | [] => mret valid
  | target :: rest =>
      captured ← board_get_cell target;
      _ ← board_set_cell target (Some self);
      in_check ← is_king_check_cached (is_white self);
      _ ← board_set_cell_at old_cell (Some self);
      _ ← board_set_cell target captured;
      valid_loop self old_cell rest
                 (if negb in_check then valid ++ [target] else valid)
  end.

Definition get_valid_cells (fuel : nat) (self : Piece) : Sim (list Cell) :=
  let valid : list Cell := [] in
  reachable ← query (fun w => get_reachable_cells board fuel w self);
  old_cell ← query (fun w => Ok (piece_cell w !! self));
  valid_loop self old_cell reachable valid.

End Filter.

(** ** The evaluator *)

Definition base_values : list (string * float) :=
  [ ("Pawn", 1.0%float); ("Knight", 3.0%float);
    ("Bishop", 0x1.999999999999ap+1%float) (* 3.2 *);
    ("Rook", 5.0%float); ("Queen", 9.0%float); ("King", 200.0%float) ].

(** [d.get(key, default)] *)
Fixpoint dict_get (d : list (string * float)) (key : string) (default : float) : float :=
  match d with
  | [] => default
  | (k, v) :: d' => if String.eqb k key then v else dict_get d' key default
  end.

(** Conversion of a Python integer to a float, as done by [float * int]. *)
Definition float_of_int (z : Z) : float := PrimFloat.of_uint63 (Uint63.of_Z z).

(** The float literals [0.05] and [0.10]. *)
Definition mobility_weight : float := 0x1.999999999999ap-5%float.
Definition pressure_weight : float := 0x1.999999999999ap-4%float.

Section Evaluator.

Variable board : Board.

(** The [for cell in reachable] loop that counts the hits. *)
Definition count_hits (w : World) (self : Piece) (reachable : list Cell) : outcome Z :=
  for_each reachable
    (fun cell hit_count =>
       h ← can_hit_on_cell board w self cell;
       Ok (if h : bool then hit_count + 1 else hit_count))
    0.

(** After the first [try], the local [reachable] is bound only if the
    generator returned; reading it unbound raises [UnboundLocalError]
    inside the second [try]. *)
Definition evaluate (fuel : nat) (w : World) (self : Piece) : outcome float :=
  let cls_name := class_name self in
  let base := dict_get base_values cls_name 0.0%float in
  rm ← try_except
         (reachable ← get_reachable_cells board fuel w self;
          Ok (Some reachable,
              PrimFloat.mul mobility_weight (float_of_int (Z.of_nat (length reachable)))))
         (fun _ => Ok (None, 0.0%float));
  let '(reachable, mobility) := rm in
  pressure ← try_except
               (reachable ← match reachable with
                            | Some l => Ok l
                            | None => Raise (UnboundLocalError "reachable")
                            end;
                hit_count ← count_hits w self reachable;
                Ok (PrimFloat.mul pressure_weight (float_of_int hit_count)))
               (fun _ => Ok 0.0%float);
  Ok (PrimFloat.add (PrimFloat.add base mobility) pressure).

End Evaluator.

(** ** A concrete board, for running the code on examples *)

Module Standard.

(** Modelled from the spec: the bounds and occupancy predicates of the
    Board collaborator, on the 8 by 8 grid the pawn's start rows (1 and 6)
    belong to: [cell_is_valid_and_empty], [piece_can_enter_cell]
    ("in-bounds and not friendly-occupied") and [piece_can_hit_on_cell]
    ("in-bounds and enemy-occupied"). *)
Definition is_valid_cell (cell : Cell) : bool :=
  (0 <=? cell.1) && (cell.1 <? 8) && (0 <=? cell.2) && (cell.2 <? 8).

Definition valid_and_empty (w : World) (cell : Cell) : answer bool :=
  Returns (is_valid_cell cell &&
           match cells w !! cell with None => true | Some _ => false end).

Definition can_enter (w : World) (piece : Piece) (cell : Cell) : answer bool :=
  Returns (is_valid_cell cell &&
           match cells w !! cell with
           | None => true
           | Some q => negb (Bool.eqb (white q) (white piece))
           end).

Definition can_hit (w : World) (piece : Piece) (cell : Cell) : answer bool :=
  Returns (is_valid_cell cell &&
           match cells w !! cell with
           | None => false
           | Some q => negb (Bool.eqb (white q) (white piece))
           end).

(** The occupancy predicates alone, with a check predicate that never
    reports check. *)
Definition movement : Board :=
  mkBoard valid_and_empty can_enter can_hit (fun _ _ => Returns false).

Definition cell_eqb (a b : Cell) : bool := (a.1 =? b.1) && (a.2 =? b.2).

(** Modelled from the spec: a check predicate for the Board collaborator
    ("condition where a king is under attack"): the king of the colour is
    in check when its cell is a reachable cell of an enemy piece standing
    on the board. *)
Definition king_check (w : World) (white_king : bool) : answer bool :=
  let occupants := map_to_list (cells w) in
  match List.find (fun cq => match kind cq.2 with
                             | King => Bool.eqb (white cq.2) white_king
                             | _ => false
                             end) occupants with
  | None => Returns false
  | Some (_, k) =>
      match piece_cell w !! k with
      | None => Returns false
      | Some kc =>
          let attacked :=
            for_each occupants
              (fun cq found =>
                 if Bool.eqb (white cq.2) white_king then Ok found
                 else reach ← get_reachable_cells movement 8 w cq.2;
                      Ok (found || existsb (cell_eqb kc) reach))
              false in
          match attacked with
          | Ok b => Returns b
          | Raise e => Raises e
          | OutOfFuel => Raises (BoardQueryFailure "ray left unfinished")
          end
      end
  end.

Definition board : Board := mkBoard valid_and_empty can_enter can_hit king_check.


(** A board whose capture query reads the colour of the occupant without
    looking whether there is one, and so fails on an empty cell. *)
Definition failing_hit : Board :=
  mkBoard valid_and_empty can_enter
    (fun w piece cell =>
       if is_valid_cell cell then
         match cells w !! cell with
         | None => Raises (BoardQueryFailure "'NoneType' object has no attribute 'is_white'")
         | Some q => Returns (negb (Bool.eqb (white q) (white piece)))
         end
       else Returns false)
    king_check.

(** Setting up a position: [place] is [set_cell] on the pieces in turn. *)
Definition empty_world : World := mkWorld ∅ ∅.

Definition place (pieces : list (Cell * Piece)) : World :=
  fold_left (fun w cq => set_cell w cq.1 (Some cq.2)) pieces empty_world.

Definition white_king : Piece := mkPiece 0 King true.
Definition black_king : Piece := mkPiece 1 King false.
Definition white_rook : Piece := mkPiece 2 Rook true.
Definition black_rook : Piece := mkPiece 3 Rook false.
Definition white_pawn : Piece := mkPiece 4 Pawn true.
Definition black_pawn : Piece := mkPiece 5 Pawn false.
Definition white_queen : Piece := mkPiece 6 Queen true.
Definition white_bishop : Piece := mkPiece 7 Bishop true.
Definition white_knight : Piece := mkPiece 8 Knight true.

(** White king on e1, black rook on d8, black king on h8. *)
Definition king_and_rook : World :=
  place [((0, 4), white_king); ((7, 3), black_rook); ((7, 7), black_king)].

(** White rook on a1 with a white pawn on a3 and a black pawn on d1. *)
Definition rook_position : World :=
  place [((0, 0), white_rook); ((2, 0), white_pawn); ((0, 3), black_pawn);
         ((0, 7), white_king); ((7, 7), black_king)].

(** White pawn on b2, black pawn on c3. *)
Definition pawn_position : World :=
  place [((1, 1), white_pawn); ((2, 2), black_pawn)].

(** White queen on d4, with a white rook and a white bishop that have been
    set on d4 before her and still carry that cell; a black pawn on d6 and a
    white pawn on f6. *)
Definition queen_position : World :=
  place [((3, 3), white_rook); ((3, 3), white_bishop); ((3, 3), white_queen);
         ((5, 3), black_pawn); ((5, 5), white_pawn)].

(** A board without bounds on which every cell is valid and empty. *)
Definition endless : Board :=
  mkBoard (fun _ _ => Returns true) can_enter can_hit king_check.

(** White king on e1 and a lone white knight on d4. *)
Definition knight_position : World :=
  place [((3, 3), white_knight); ((0, 4), white_king); ((5, 4), black_pawn);
         ((5, 2), white_pawn)].

(** The white rook of [rook_position] after a capture on a1: the black
    rook stands there now, the white rook still records a1. *)
Definition captured_rook : World :=
  set_cell rook_position (0, 0) (Some black_rook).

End Standard.

(** ** The simulate/restore cycle on the board store *)

(** Every piece standing on the board knows the cell it stands on. *)
Definition board_consistent (w : World) : Prop :=
  forall cell q, cells w !! cell = Some q -> piece_cell w !! q = Some cell.

(** The board state in which the check predicate is queried: the mover
    placed on the target. *)
Definition simulate (w : World) (self : Piece) (target : Cell) : World :=
  set_cell w target (Some self).

(** The calls of one iteration of the filter's loop, with the board states
    they end in. *)
Definition cycle_trace (w : World) (self : Piece) (old_cell target : Cell)
  : list (BoardCall * World) :=
  [ (CallGetCell target, w);
    (CallSetCell target (Some self), simulate w self target);
    (CallIsKingCheck (is_white self), simulate w self target);
    (CallSetCell old_cell (Some self),
     set_cell (simulate w self target) old_cell (Some self));
    (CallSetCell target (get_cell w target), w) ].

(** The calls of an iteration in which the check predicate raises. *)
Definition broken_cycle_trace (w : World) (self : Piece) (target : Cell)
  : list (BoardCall * World) :=
  [ (CallGetCell target, w);
    (CallSetCell target (Some self), simulate w self target);
    (CallIsKingCheck (is_white self), simulate w self target) ].

(** The answer of the check predicate for a candidate, [false] standing in
    where it raises. *)
Definition check_answer (board : Board) (w : World) (self : Piece) (target : Cell) : bool :=
  match board_is_king_check_cached board (simulate w self target) (is_white self) with
  | Returns b => b
  | Raises _ => false
  end.

(** ** Vocabulary of the statements *)

(** The cell [i] steps away from [(r, c)] in the direction [d]. *)
Definition cell_at (r c : Z) (d : Z * Z) (i : nat) : Cell :=
  (r + Z.of_nat i * d.1, c + Z.of_nat i * d.2).

(** The cells of a ray that has [stop] empty cells before its first
    non-empty cell: the empty cells, then the stopping cell when it can be
    hit. *)
Definition ray_cells (r c : Z) (d : Z * Z) (stop : nat) (hit : bool) : list Cell :=
  map (cell_at r c d) (seq 1 stop) ++ (if hit then [cell_at r c d (S stop)] else []).

(** The ray directions of the sliding classes. *)
Definition directions (k : Kind) : list (Z * Z) :=
  match k with
  | Rook => Rook_directions
  | Bishop => Bishop_directions
  | Queen => Queen_directions
  | _ => []
  end.

Definition sliding (k : Kind) : bool :=
  match k with
  | Rook | Bishop | Queen => true
  | _ => false
  end.

(** The cells the board calls valid and empty lie in an [n] by [n] square. *)
Definition board_bounded (board : Board) (w : World) (n : Z) : Prop :=
  forall cell, cell_is_valid_and_empty board w cell = Ok true ->
               0 <= cell.1 < n /\ 0 <= cell.2 < n.

(** The capture query of the board looks at the colour of the piece only. *)
Definition hit_by_colour (board : Board) (w : World) : Prop :=
  forall p q cell, white p = white q ->
    board_piece_can_hit_on_cell board w p cell = board_piece_can_hit_on_cell board w q cell.

(** The base material table as the specification gives it. *)
Definition base_material (k : Kind) : float :=
  match k with
  | Pawn => 1.0
  | Knight => 3.0
  | Bishop => 0x1.999999999999ap+1 (* 3.2 *)
  | Rook => 5.0
  | Queen => 9.0
  | King => 200.0
  end%float.

(** The forward direction and the starting rank of a pawn, by colour. *)
Definition pawn_direction (self : Piece) : Z := if is_white self then 1 else -1.
Definition pawn_start_row (self : Piece) : Z := if is_white self then 1 else 6.

(** The unit offsets of the king, in the order the two nested loops visit
    them. *)
Definition King_offsets : list (Z * Z) :=
  [(-1, -1); (-1, 0); (-1, 1); (0, -1); (0, 1); (1, -1); (1, 0); (1, 1)].

(** The cell at offset [d] from [(r, c)]. *)
Definition offset_cell (r c : Z) (d : Z * Z) : Cell := (r + d.1, c + d.2).

(** The board said yes to the cell: valid and empty, enterable, or a hit. *)
Definition approved (board : Board) (w : World) (self : Piece) (cell : Cell) : Prop :=
  cell_is_valid_and_empty board w cell = Ok true \/
  can_enter_cell board w self cell = Ok true \/
  can_hit_on_cell board w self cell = Ok true.

(** The cell lies on the ray from [(r, c)] in direction [d], every cell
    before it on that ray is valid and empty, and it is itself valid and
    empty or a cell that is not and on which the piece can hit. *)
Definition on_clear_ray (board : Board) (w : World) (self : Piece) (r c : Z)
           (d : Z * Z) (cell : Cell) : Prop :=
  exists i, (1 <= i)%nat /\ cell = cell_at r c d i /\
    (forall j, (1 <= j < i)%nat ->
       cell_is_valid_and_empty board w (cell_at r c d j) = Ok true) /\
    (cell_is_valid_and_empty board w cell = Ok true \/
     (cell_is_valid_and_empty board w cell = Ok false /\
      can_hit_on_cell board w self cell = Ok true)).

(** The board one iteration of the filter's loop leaves behind when the
    check predicate answers. *)
Definition after_cycle (w : World) (self : Piece) (old_cell target : Cell) : World :=
  set_cell (set_cell (simulate w self target) old_cell (Some self)) target
           (get_cell w target).

(** The calls that query the check predicate. *)
Definition is_check_call (call : BoardCall) : bool :=
  match call with
  | CallIsKingCheck _ => true
  | _ => false
  end.

(** The three occupancy queries of the board answer for every cell, for
    this piece on this board state. *)
Definition board_answers (board : Board) (w : World) (self : Piece) : Prop :=
  forall cell,
    (exists b, cell_is_valid_and_empty board w cell = Ok b) /\
    (exists b, can_enter_cell board w self cell = Ok b) /\
    (exists b, can_hit_on_cell board w self cell = Ok b).



(** An exception that says of itself that the piece has no cell.  The
    module defines no exception class and has no [raise] statement, so such
    an exception could only be told by its message. *)
Definition explicit_unplaced_piece_error (e : exn) : bool :=
  match e with
  | TypeError msg | BoardQueryFailure msg =>
      match String.index 0 "unplaced" msg with
      | Some _ => true
      | None => false
      end
  | UnboundLocalError _ => false
  end.

(** * Properties *)

Lemma World_eq (w w' : World) :
  cells w = cells w' -> piece_cell w = piece_cell w' -> w = w'.
Proof. destruct w, w'; simpl; intros -> ->; reflexivity. Qed.

Lemma consistent_piece_cell w old self :
  board_consistent w -> cells w !! old = Some self -> piece_cell w !! self = Some old.
Proof. intros Hc Hp. exact (Hc _ _ Hp). Qed.

Lemma restore_cycle w self old target :
  board_consistent w ->
  cells w !! old = Some self ->
  set_cell (set_cell (simulate w self target) old (Some self)) target (get_cell w target) = w.
Proof.
  intros Hc Hp. pose proof (Hc _ _ Hp) as Hself.
  apply World_eq.
  - unfold simulate, get_cell; simpl. apply map_eq; intros i.
    rewrite !lookup_partial_alter.
    repeat case_decide; subst; congruence.
  - unfold simulate, get_cell; simpl.
    rewrite insert_insert_eq, (insert_id _ _ _ Hself).
    destruct (cells w !! target) as [q|] eqn:Hq; [|reflexivity].
    apply insert_id, (Hc _ _ Hq).
Qed.

Section FilterFacts.

Variable board : Board.

(** One iteration of the loop on a consistent board: either the check
    predicate answers and the board is back in its state, or it raises and
    the mover stays on the target. *)
Lemma valid_loop_step w self old target rest valid :
  board_consistent w ->
  cells w !! old = Some self ->
  valid_loop board self (Some old) (target :: rest) valid w =
  match board_is_king_check_cached board (simulate w self target) (is_white self) with
  | Returns in_check =>
      let r := valid_loop board self (Some old) rest
                 (if negb in_check then valid ++ [target] else valid) w in
      mkRun (final r) (cycle_trace w self old target ++ trace r) (result r)
  | Raises e =>
      mkRun (simulate w self target) (broken_cycle_trace w self target) (Raise e)
  end.
Proof.
  intros Hc Hp.
  pose proof (restore_cycle w self old target Hc Hp) as Hrestore.
  unfold simulate in *.
  cbn [valid_loop].
  unfold mbind, Sim_bind, board_get_cell, board_set_cell, board_set_cell_at,
    is_king_check_cached, board_set_cell; cbn [final trace result].
  destruct (board_is_king_check_cached board _ _) as [b|e]; cbn.
  - rewrite Hrestore. reflexivity.
  - reflexivity.
Qed.

(** All check queries answer: the loop returns the filtered candidates
    and leaves the board as it found it. *)
Lemma valid_loop_returns w self old (in_check : Cell -> bool) targets :
  board_consistent w ->
  cells w !! old = Some self ->
  (forall t, In t targets ->
     board_is_king_check_cached board (simulate w self t) (is_white self)
     = Returns (in_check t)) ->
  forall valid,
    valid_loop board self (Some old) targets valid w =
    mkRun w (flat_map (cycle_trace w self old) targets)
          (Ok (valid ++ List.filter (fun t => negb (in_check t)) targets)).
Proof.
  intros Hc Hp. induction targets as [|t rest IH]; intros Hq valid.
  - cbn. rewrite app_nil_r. reflexivity.
  - rewrite valid_loop_step by assumption.
    rewrite (Hq t (or_introl eq_refl)).
    cbv zeta. rewrite IH by (intros; apply Hq; right; assumption).
    cbn [final trace result flat_map List.filter].
    destruct (in_check t); cbn [negb]; [reflexivity|].
    rewrite <- app_assoc. reflexivity.
Qed.


(** A loop that returns has had an answer to every check query. *)
Lemma valid_loop_normal w self old targets :
  board_consistent w ->
  cells w !! old = Some self ->
  forall valid v,
    result (valid_loop board self (Some old) targets valid w) = Ok v ->
    forall t, In t targets ->
      exists b, board_is_king_check_cached board (simulate w self t) (is_white self)
                = Returns b.
Proof.
  intros Hc Hp. induction targets as [|t rest IH]; intros valid v Hr x Hx.
  - destruct Hx.
  - rewrite valid_loop_step in Hr by assumption.
    destruct (board_is_king_check_cached board (simulate w self t) (is_white self))
      as [b|e] eqn:Hb; [|discriminate].
    destruct Hx as [<-|Hx]; [eauto|].
    cbn in Hr. eapply IH; eassumption.
Qed.

(** The filter's prologue: the generator's outcome decides whether the
    loop runs at all. *)
Lemma get_valid_cells_unfold fuel w self :
  get_valid_cells board fuel self w =
  match get_reachable_cells board fuel w self with
  | Ok reachable => valid_loop board self (piece_cell w !! self) reachable [] w
  | Raise e => mkRun w [] (Raise e)
  | OutOfFuel => mkRun w [] OutOfFuel
  end.
Proof.
  unfold get_valid_cells, mbind, Sim_bind, query; cbn [final trace result].
  destruct (get_reachable_cells board fuel w self); cbn; [|reflexivity..].
  destruct (valid_loop _ _ _ _ _ _); reflexivity.
Qed.

End FilterFacts.

Section FilterRuns.

Variable board : Board.

(** The whole run of the filter when every check query answers. *)
Lemma get_valid_cells_run fuel w self old reachable (in_check : Cell -> bool) :
  board_consistent w ->
  cells w !! old = Some self ->
  get_reachable_cells board fuel w self = Ok reachable ->
  (forall t, In t reachable ->
     board_is_king_check_cached board (simulate w self t) (is_white self)
     = Returns (in_check t)) ->
  get_valid_cells board fuel self w =
  mkRun w (flat_map (cycle_trace w self old) reachable)
        (Ok (List.filter (fun t => negb (in_check t)) reachable)).
Proof.
  intros Hc Hp Hr Hq.
  rewrite get_valid_cells_unfold, Hr, (consistent_piece_cell _ _ _ Hc Hp).
  apply (valid_loop_returns board w self old in_check reachable Hc Hp Hq []).
Qed.

(** A filter that returns has had its candidates and an answer to each of
    its check queries. *)
Lemma get_valid_cells_normal fuel w self old valid :
  board_consistent w ->
  cells w !! old = Some self ->
  result (get_valid_cells board fuel self w) = Ok valid ->
  exists reachable,
    get_reachable_cells board fuel w self = Ok reachable /\
    forall t, In t reachable ->
      board_is_king_check_cached board (simulate w self t) (is_white self)
      = Returns (check_answer board w self t).
Proof.
  intros Hc Hp Hv. rewrite get_valid_cells_unfold in Hv.
  destruct (get_reachable_cells board fuel w self) as [reachable| |] eqn:Hr;
    try discriminate.
  exists reachable. split; [reflexivity|]. intros t Ht.
  rewrite (consistent_piece_cell _ _ _ Hc Hp) in Hv.
  destruct (valid_loop_normal board w self old reachable Hc Hp [] valid Hv t Ht) as [b Hb].
  unfold check_answer. rewrite Hb. reflexivity.
Qed.

(** The mover's cell attribute in the states of one iteration. *)
Lemma cycle_trace_piece_cell w self old target entry :
  board_consistent w ->
  cells w !! old = Some self ->
  In entry (cycle_trace w self old target) ->
  piece_cell entry.2 !! self = Some old \/
  (piece_cell entry.2 !! self = Some target /\
   (entry.1 = CallSetCell target (Some self) \/
    entry.1 = CallIsKingCheck (is_white self))).
Proof.
  intros Hc Hp Hin. pose proof (consistent_piece_cell _ _ _ Hc Hp) as Hself.
  unfold cycle_trace in Hin. cbn [In] in Hin.
  destruct Hin as [<-|[<-|[<-|[<-|[<-|[]]]]]]; cbn [fst snd].
  - left; assumption.
  - right. split; [|left; reflexivity]. unfold simulate; cbn. apply lookup_insert_eq.
  - right. split; [|right; reflexivity]. unfold simulate; cbn. apply lookup_insert_eq.
  - left. cbn. apply lookup_insert_eq.
  - left; assumption.
Qed.

End FilterRuns.

Lemma board_consistent_decide (w : World) :
  bool_decide (map_Forall (fun cell q => piece_cell w !! q = Some cell) (cells w)) = true ->
  board_consistent w.
Proof. intros H. apply bool_decide_eq_true_1 in H. exact H. Qed.

(** C1, as the claim states it, fails: a non-null current cell is not
    enough.  The white rook that was captured on a1 still records a1; its
    call of [get_valid_cells] returns, and afterwards the white rook stands
    on a1 where the black rook stood. *)
Lemma restore_overwrites_for_displaced_piece :
  let run := get_valid_cells Standard.board 8 Standard.white_rook
               Standard.captured_rook in
  piece_cell Standard.captured_rook !! Standard.white_rook = Some (0, 0) /\
  result run = Ok [(1, 0); (0, 1); (0, 2); (0, 3)] /\
  cells Standard.captured_rook !! (0, 0) = Some Standard.black_rook /\
  cells (final run) !! (0, 0) = Some Standard.white_rook /\
  final run <> Standard.captured_rook.
Proof.
  cbv zeta.
  assert (Hafter : cells (final (get_valid_cells Standard.board 8 Standard.white_rook
                     Standard.captured_rook)) !! (0, 0)
                   = Some Standard.white_rook) by (vm_compute; reflexivity).
  assert (Hbefore : cells Standard.captured_rook !! (0, 0) = Some Standard.black_rook)
    by (vm_compute; reflexivity).
  split; [vm_compute; reflexivity|].
  split; [vm_compute; reflexivity|].
  split; [exact Hbefore|].
  split; [exact Hafter|].
  intros Heq. rewrite Heq, Hbefore in Hafter. clear Heq. discriminate Hafter.
Qed.

(** C1, amended: on a board on which the piece stands on its current cell
    and every piece on the grid records the cell it stands on, a call of
    [get_valid_cells] that returns leaves the board store exactly as it
    found it, whatever the number of candidates: for each candidate, in
    order, it reads the occupant of the target, places the mover on the
    target, queries the check predicate, puts the mover back on its
    original cell and then the recorded occupant (or the empty marker) back
    on the target. *)
Theorem get_valid_cells_restores_board board fuel w self old valid :
  board_consistent w ->
  cells w !! old = Some self ->
  result (get_valid_cells board fuel self w) = Ok valid ->
  final (get_valid_cells board fuel self w) = w /\
  exists reachable,
    get_reachable_cells board fuel w self = Ok reachable /\
    trace (get_valid_cells board fuel self w) =
    flat_map (cycle_trace w self old) reachable.
Proof.
  intros Hc Hp Hv.
  destruct (get_valid_cells_normal board fuel w self old valid Hc Hp Hv)
    as (reachable & Hr & Hq).
  rewrite (get_valid_cells_run board fuel w self old reachable _ Hc Hp Hr Hq).
  split; [reflexivity|]. exists reachable. split; [exact Hr | reflexivity].
Qed.

Lemma get_valid_cells_restores_board_witness :
  final (get_valid_cells Standard.board 8 Standard.white_king Standard.king_and_rook)
  = Standard.king_and_rook /\
  exists reachable,
    get_reachable_cells Standard.board 8 Standard.king_and_rook Standard.white_king
    = Ok reachable /\
    trace (get_valid_cells Standard.board 8 Standard.white_king Standard.king_and_rook) =
    flat_map (cycle_trace Standard.king_and_rook Standard.white_king (0, 4)) reachable.
Proof.
  apply (get_valid_cells_restores_board Standard.board 8 Standard.king_and_rook
           Standard.white_king (0, 4) [(0, 5); (1, 4); (1, 5)]).
  - apply board_consistent_decide. vm_compute. reflexivity.
  - vm_compute. reflexivity.
  - vm_compute. reflexivity.
Defined.







(** ** The loops of the movement generators *)

Lemma call_not_OutOfFuel {A} (a : answer A) : call a <> OutOfFuel.
Proof. destruct a; discriminate. Qed.

Lemma for_each_app {A S} (xs ys : list A) (body : A -> S -> outcome S) (s : S) :
  for_each (xs ++ ys) body s = (s' ← for_each xs body s; for_each ys body s').
Proof.
  revert s. induction xs as [|x xs IH]; intros s; cbn; [reflexivity|].
  destruct (body x s); cbn; [apply IH|reflexivity..].
Qed.

(** A loop whose body appends cells to the list appends their
    concatenation. *)
Lemma for_each_appends {A} (xs : list A) (body : A -> list Cell -> outcome (list Cell))
      (f : A -> list Cell) :
  (forall x, In x xs -> forall acc, body x acc = Ok (acc ++ f x)) ->
  forall acc, for_each xs body acc = Ok (acc ++ flat_map f xs).
Proof.
  induction xs as [|x xs IH]; intros Hb acc; cbn.
  - rewrite app_nil_r. reflexivity.
  - rewrite (Hb x (or_introl eq_refl)). cbn.
    rewrite IH by (intros; apply Hb; right; assumption).
    rewrite <- app_assoc. reflexivity.
Qed.

Lemma for_each_no_fuel {A S} (xs : list A) (body : A -> S -> outcome S) :
  (forall x, In x xs -> forall s, body x s <> OutOfFuel) ->
  forall s, for_each xs body s <> OutOfFuel.
Proof.
  induction xs as [|x xs IH]; intros Hb s; cbn; [discriminate|].
  destruct (body x s) eqn:Hx; cbn.
  - apply IH. intros; apply Hb; right; assumption.
  - discriminate.
  - exfalso. exact (Hb x (or_introl eq_refl) s Hx).
Qed.

Section RayFacts.

Variable board : Board.
Variable w : World.
Variable self : Piece.

(** The list a ray is given only sits in front of what the ray adds. *)
Lemma ray_loop_acc fuel dr dc nr nc acc :
  ray_loop board fuel w self dr dc nr nc acc =
  (l ← ray_loop board fuel w self dr dc nr nc []; Ok (acc ++ l)).
Proof.
  revert nr nc acc. induction fuel as [|fuel IH]; intros nr nc acc; cbn; [reflexivity|].
  destruct (cell_is_valid_and_empty board w (nr, nc)) as [[|]| |]; cbn; try reflexivity.
  - rewrite IH. rewrite (IH _ _ [(nr, nc)]).
    destruct (ray_loop board fuel w self dr dc (nr + dr) (nc + dc) []); cbn;
      [rewrite <- app_assoc|..]; reflexivity.
  - destruct (can_hit_on_cell board w self (nr, nc)) as [[|]| |]; cbn;
      rewrite ?app_nil_r; reflexivity.
Qed.

(** A ray with [k] empty cells in front of its first non-empty cell takes
    [k + 1] iterations. *)
Lemma ray_loop_stops dr dc k :
  forall fuel nr nc acc hit,
    (forall i, (i < k)%nat ->
       cell_is_valid_and_empty board w (nr + Z.of_nat i * dr, nc + Z.of_nat i * dc)
       = Ok true) ->
    cell_is_valid_and_empty board w (nr + Z.of_nat k * dr, nc + Z.of_nat k * dc)
    = Ok false ->
    can_hit_on_cell board w self (nr + Z.of_nat k * dr, nc + Z.of_nat k * dc) = Ok hit ->
    (k < fuel)%nat ->
    ray_loop board fuel w self dr dc nr nc acc =
    Ok (acc ++ map (fun i => (nr + Z.of_nat i * dr, nc + Z.of_nat i * dc)) (seq 0 k)
            ++ (if hit then [(nr + Z.of_nat k * dr, nc + Z.of_nat k * dc)] else [])).
Proof.
  induction k as [|k IH]; intros fuel nr nc acc hit Hempty Hstop Hhit Hfuel.
  - destruct fuel as [|fuel]; [lia|]. cbn [ray_loop].
    replace (nr + Z.of_nat 0 * dr) with nr in * by lia.
    replace (nc + Z.of_nat 0 * dc) with nc in * by lia.
    rewrite Hstop; cbn. rewrite Hhit; cbn.
    destruct hit; rewrite ?app_nil_r; reflexivity.
  - destruct fuel as [|fuel]; [lia|]. cbn [ray_loop].
    pose proof (Hempty 0%nat ltac:(lia)) as H0.
    replace (nr + Z.of_nat 0 * dr) with nr in H0 by lia.
    replace (nc + Z.of_nat 0 * dc) with nc in H0 by lia.
    rewrite H0; cbn.
    rewrite (IH fuel (nr + dr) (nc + dc) (acc ++ [(nr, nc)]) hit).
    + rewrite <- app_assoc. cbn [app seq map].
      replace (nr + Z.of_nat 0 * dr) with nr by lia.
      replace (nc + Z.of_nat 0 * dc) with nc by lia.
      rewrite <- seq_shift, map_map.
      replace (nr + dr + Z.of_nat k * dr) with (nr + Z.of_nat (S k) * dr) by lia.
      replace (nc + dc + Z.of_nat k * dc) with (nc + Z.of_nat (S k) * dc) by lia.
      f_equal. f_equal. f_equal. f_equal. apply map_ext. intros i. f_equal; lia.
    + intros i Hi. specialize (Hempty (S i) ltac:(lia)).
      replace (nr + dr + Z.of_nat i * dr) with (nr + Z.of_nat (S i) * dr) by lia.
      replace (nc + dc + Z.of_nat i * dc) with (nc + Z.of_nat (S i) * dc) by lia.
      exact Hempty.
    + replace (nr + dr + Z.of_nat k * dr) with (nr + Z.of_nat (S k) * dr) by lia.
      replace (nc + dc + Z.of_nat k * dc) with (nc + Z.of_nat (S k) * dc) by lia.
      exact Hstop.
    + replace (nr + dr + Z.of_nat k * dr) with (nr + Z.of_nat (S k) * dr) by lia.
      replace (nc + dc + Z.of_nat k * dc) with (nc + Z.of_nat (S k) * dc) by lia.
      exact Hhit.
    + lia.
Qed.

(** The same, seen from the piece's cell. *)
Lemma ray_loop_ray_cells fuel r c d stop hit acc :
  (forall i, (1 <= i <= stop)%nat ->
     cell_is_valid_and_empty board w (cell_at r c d i) = Ok true) ->
  cell_is_valid_and_empty board w (cell_at r c d (S stop)) = Ok false ->
  can_hit_on_cell board w self (cell_at r c d (S stop)) = Ok hit ->
  (stop < fuel)%nat ->
  ray_loop board fuel w self d.1 d.2 (r + d.1) (c + d.2) acc =
  Ok (acc ++ ray_cells r c d stop hit).
Proof.
  intros Hempty Hstop Hhit Hfuel.
  assert (Hat : forall i, (r + d.1 + Z.of_nat i * d.1, c + d.2 + Z.of_nat i * d.2)
                          = cell_at r c d (S i)).
  { intros i. unfold cell_at. f_equal; lia. }
  rewrite (ray_loop_stops d.1 d.2 stop fuel (r + d.1) (c + d.2) acc hit).
  - unfold ray_cells. rewrite <- seq_shift, map_map, Hat.
    f_equal. f_equal. f_equal. apply map_ext. intros i. apply Hat.
  - intros i Hi. rewrite Hat. apply Hempty. lia.
  - rewrite Hat. exact Hstop.
  - rewrite Hat. exact Hhit.
  - exact Hfuel.
Qed.

(** A ray that is still going when its fuel is used up has seen only valid
    and empty cells. *)
Lemma ray_loop_out_of_fuel fuel dr dc :
  forall nr nc acc,
    ray_loop board fuel w self dr dc nr nc acc = OutOfFuel ->
    forall i, (i < fuel)%nat ->
      cell_is_valid_and_empty board w (nr + Z.of_nat i * dr, nc + Z.of_nat i * dc)
      = Ok true.
Proof.
  induction fuel as [|fuel IH]; intros nr nc acc Hout i Hi; [lia|].
  cbn [ray_loop] in Hout.
  destruct (cell_is_valid_and_empty board w (nr, nc)) as [[|]| |] eqn:He; cbn in Hout;
    try discriminate.
  - destruct i as [|i].
    + replace (nr + Z.of_nat 0 * dr) with nr by lia.
      replace (nc + Z.of_nat 0 * dc) with nc by lia. exact He.
    + specialize (IH _ _ _ Hout i ltac:(lia)).
      replace (nr + Z.of_nat (S i) * dr) with (nr + dr + Z.of_nat i * dr) by lia.
      replace (nc + Z.of_nat (S i) * dc) with (nc + dc + Z.of_nat i * dc) by lia.
      exact IH.
  - destruct (can_hit_on_cell board w self (nr, nc)) as [[|]| |] eqn:Hh; cbn in Hout;
      try discriminate.
    exfalso. exact (call_not_OutOfFuel _ Hh).
  - exfalso. exact (call_not_OutOfFuel _ He).
Qed.

(** On a bounded board a ray along a queen's direction ends within the
    bound. *)
Lemma ray_loop_terminates n fuel d nr nc acc :
  board_bounded board w n ->
  0 <= n < Z.of_nat fuel ->
  In d Queen_directions ->
  ray_loop board fuel w self d.1 d.2 nr nc acc <> OutOfFuel.
Proof.
  intros Hb Hn Hd Hout.
  pose proof (ray_loop_out_of_fuel fuel d.1 d.2 nr nc acc Hout) as Hall.
  destruct fuel as [|fuel]; [lia|].
  pose proof (Hb _ (Hall 0%nat ltac:(lia))) as [H0r H0c].
  pose proof (Hb _ (Hall fuel ltac:(lia))) as [Hfr Hfc].
  cbn [fst snd] in *.
  unfold Queen_directions in Hd. cbn [In] in Hd.
  destruct Hd as [<-|[<-|[<-|[<-|[<-|[<-|[<-|[<-|[]]]]]]]]]; cbn [fst snd] in *; lia.
Qed.

End RayFacts.

(** ** The movement generators *)

Section GeneratorFacts.

Variable board : Board.

Lemma unpack_cell_placed w self rc :
  piece_cell w !! self = Some rc -> unpack_cell w self = Ok rc.
Proof. intros H. unfold unpack_cell. rewrite H. reflexivity. Qed.

Lemma get_reachable_cells_sliding fuel w self :
  sliding (kind self) = true ->
  get_reachable_cells board fuel w self = slide board fuel w self (directions (kind self)).
Proof.
  unfold get_reachable_cells, directions. destruct (kind self); try discriminate; reflexivity.
Qed.

(** The rays of a sliding generator, one after the other. *)
Lemma slide_rays fuel w self r c ds (stop : Z * Z -> nat) (hit : Z * Z -> bool) :
  piece_cell w !! self = Some (r, c) ->
  (forall d, In d ds ->
     (forall i, (1 <= i <= stop d)%nat ->
        cell_is_valid_and_empty board w (cell_at r c d i) = Ok true) /\
     cell_is_valid_and_empty board w (cell_at r c d (S (stop d))) = Ok false /\
     can_hit_on_cell board w self (cell_at r c d (S (stop d))) = Ok (hit d) /\
     (stop d < fuel)%nat) ->
  slide board fuel w self ds =
  Ok (flat_map (fun d => ray_cells r c d (stop d) (hit d)) ds).
Proof.
  intros Hcell Hrays. unfold slide. rewrite (unpack_cell_placed _ _ _ Hcell). cbn.
  rewrite (for_each_appends ds _ (fun d => ray_cells r c d (stop d) (hit d)));
    [reflexivity|].
  intros d Hd acc. destruct (Hrays d Hd) as (He & Hs & Hh & Hf).
  apply ray_loop_ray_cells; assumption.
Qed.

(** The list a sliding loop starts from only sits in front of its cells. *)
Lemma slide_loop_acc fuel w self r c ds acc :
  for_each ds
    (fun d reachable => ray_loop board fuel w self d.1 d.2 (r + d.1) (c + d.2) reachable)
    acc =
  (l ← for_each ds
         (fun d reachable =>
            ray_loop board fuel w self d.1 d.2 (r + d.1) (c + d.2) reachable) [];
   Ok (acc ++ l)).
Proof.
  revert acc. induction ds as [|d ds IH]; intros acc; cbn.
  - rewrite app_nil_r. reflexivity.
  - rewrite ray_loop_acc.
    destruct (ray_loop board fuel w self d.1 d.2 (r + d.1) (c + d.2) []) as [l| |]; cbn;
      [|reflexivity..].
    rewrite IH. rewrite (IH l).
    destruct (for_each ds _ []); cbn; [rewrite app_assoc|..]; reflexivity.
Qed.

(** Sliding along two lists of directions in a row. *)
Lemma slide_app fuel w self ds1 ds2 :
  slide board fuel w self (ds1 ++ ds2) =
  (a ← slide board fuel w self ds1; b ← slide board fuel w self ds2; Ok (a ++ b)).
Proof.
  unfold slide. destruct (unpack_cell w self) as [[r c]| |]; cbn; [|reflexivity..].
  rewrite for_each_app.
  destruct (for_each ds1 _ []) as [a| |]; cbn; [|reflexivity..].
  apply slide_loop_acc.
Qed.

(** The rays of a sliding piece depend on the piece only through its cell
    and the answers of the capture query. *)
Lemma slide_same_answers fuel w p q ds :
  piece_cell w !! p = piece_cell w !! q ->
  (forall cell, can_hit_on_cell board w p cell = can_hit_on_cell board w q cell) ->
  slide board fuel w p ds = slide board fuel w q ds.
Proof.
  intros Hcell Hhit. unfold slide, unpack_cell. rewrite Hcell.
  destruct (piece_cell w !! q) as [[r c]|]; cbn; [|reflexivity].
  assert (Hray : forall d nr nc acc,
             ray_loop board fuel w p d.1 d.2 nr nc acc
             = ray_loop board fuel w q d.1 d.2 nr nc acc).
  { intros d. induction fuel as [|fuel' IH]; intros nr nc acc; cbn; [reflexivity|].
    rewrite Hhit.
    destruct (cell_is_valid_and_empty board w (nr, nc)) as [[|]| |]; cbn;
      [apply IH|reflexivity..]. }
  generalize (@nil Cell). induction ds as [|d ds IH]; intros acc; cbn; [reflexivity|].
  rewrite Hray. destruct (ray_loop board fuel w q d.1 d.2 (r + d.1) (c + d.2) acc); cbn;
    [apply IH|reflexivity..].
Qed.

Lemma slide_terminates n fuel w self ds :
  board_bounded board w n ->
  0 <= n < Z.of_nat fuel ->
  incl ds Queen_directions ->
  slide board fuel w self ds <> OutOfFuel.
Proof.
  intros Hb Hn Hds. unfold slide, unpack_cell.
  destruct (piece_cell w !! self) as [[r c]|]; cbn; [|discriminate].
  apply for_each_no_fuel. intros d Hd acc.
  apply (ray_loop_terminates board w self n); auto.
Qed.

Lemma step_to_no_fuel w self r c d acc : step_to board w self r c d acc <> OutOfFuel.
Proof.
  unfold step_to, can_enter_cell, can_hit_on_cell.
  destruct (board_piece_can_enter_cell board w self _) as [[|]|],
           (board_piece_can_hit_on_cell board w self _) as [[|]|]; discriminate.
Qed.

(** On a bounded board, with fuel beyond the bound, every generator comes
    to an end: it returns or raises. *)
Lemma get_reachable_cells_terminates n fuel w self :
  board_bounded board w n ->
  0 <= n < Z.of_nat fuel ->
  get_reachable_cells board fuel w self <> OutOfFuel.
Proof.
  intros Hb Hn. unfold get_reachable_cells.
  destruct (kind self).
  - unfold Pawn_get_reachable_cells, unpack_cell, cell_is_valid_and_empty, can_hit_on_cell.
    destruct (piece_cell w !! self) as [[r c]|]; cbn; [|discriminate].
    repeat (cbn; match goal with
                 | |- context [call ?a] => destruct a as [[|]|]
                 | |- context [Z.eqb ?a ?b] => destruct (Z.eqb a b)
                 end); discriminate.
  - apply (slide_terminates n); auto.
    intros d Hd. unfold Rook_directions in Hd. unfold Queen_directions. cbn in *. tauto.
  - unfold Knight_get_reachable_cells, unpack_cell.
    destruct (piece_cell w !! self) as [[r c]|]; cbn -[for_each]; [|discriminate].
    apply for_each_no_fuel. intros; apply step_to_no_fuel.
  - apply (slide_terminates n); auto.
    intros d Hd. unfold Bishop_directions in Hd. unfold Queen_directions. cbn in *. tauto.
  - apply (slide_terminates n); auto. apply incl_refl.
  - unfold King_get_reachable_cells, unpack_cell.
    destruct (piece_cell w !! self) as [[r c]|]; cbn -[for_each]; [|discriminate].
    apply for_each_no_fuel. intros dr _ acc.
    apply for_each_no_fuel. intros dc _ acc'.
    destruct ((dr =? 0) && (dc =? 0)); [discriminate|apply step_to_no_fuel].
Qed.

End GeneratorFacts.

(** C4: for a sliding piece (Rook, Bishop, Queen) standing on a cell, each
    ray contributes, in walking order, every empty cell before the first
    cell that is not valid and empty; that cell ends the ray and is
    included exactly when the piece can hit on it (a friendly or
    out-of-bounds cell is left out), and nothing beyond it is included.
    The reachable cells are the rays of the piece's directions, one after
    the other. *)
Theorem sliding_rays_stop_at_first_occupied board fuel w self r c
        (stop : Z * Z -> nat) (hit : Z * Z -> bool) :
  sliding (kind self) = true ->
  piece_cell w !! self = Some (r, c) ->
  (forall d, In d (directions (kind self)) ->
     (forall i, (1 <= i <= stop d)%nat ->
        cell_is_valid_and_empty board w (cell_at r c d i) = Ok true) /\
     cell_is_valid_and_empty board w (cell_at r c d (S (stop d))) = Ok false /\
     can_hit_on_cell board w self (cell_at r c d (S (stop d))) = Ok (hit d) /\
     (stop d < fuel)%nat) ->
  get_reachable_cells board fuel w self =
  Ok (flat_map (fun d => ray_cells r c d (stop d) (hit d)) (directions (kind self))).
Proof.
  intros Hs Hcell Hrays.
  rewrite get_reachable_cells_sliding by assumption.
  apply slide_rays; assumption.
Qed.

Lemma sliding_rays_stop_at_first_occupied_witness :
  get_reachable_cells Standard.board 8 Standard.rook_position Standard.white_rook =
  Ok (flat_map
        (fun d => ray_cells 0 0 d
                    (if (d.1 =? 1)%Z then 1%nat else if (d.2 =? 1)%Z then 2%nat else 0%nat)
                    (d.2 =? 1)%Z)
        (directions Rook)).
Proof.
  apply (sliding_rays_stop_at_first_occupied Standard.board 8 Standard.rook_position
           Standard.white_rook 0 0
           (fun d => if (d.1 =? 1)%Z then 1%nat else if (d.2 =? 1)%Z then 2%nat else 0%nat)
           (fun d => (d.2 =? 1)%Z)).
  - reflexivity.
  - vm_compute. reflexivity.
  - intros d [<-|[<-|[<-|[<-|[]]]]]; cbv [fst snd Z.eqb Pos.eqb];
      (split; [intros [|[|[|i]]] Hi; try lia; vm_compute; reflexivity|]);
      (split; [vm_compute; reflexivity|]);
      (split; [vm_compute; reflexivity|]); lia.
Defined.

(** C5: for a pawn standing on a cell, with the forward direction fixed by
    its colour (opposite for the two colours): the single step is included
    exactly when its cell is valid and empty; the double step exactly when
    the pawn is on its starting rank and both the intermediate and the
    destination cell are valid and empty; each forward diagonal exactly
    when the pawn can hit on it; and nothing else is included. *)
Theorem Pawn_reachable_cells board fuel w self r c (e1 e2 hl hr : bool) :
  kind self = Pawn ->
  piece_cell w !! self = Some (r, c) ->
  cell_is_valid_and_empty board w (r + pawn_direction self, c) = Ok e1 ->
  cell_is_valid_and_empty board w (r + 2 * pawn_direction self, c) = Ok e2 ->
  can_hit_on_cell board w self (r + pawn_direction self, c - 1) = Ok hl ->
  can_hit_on_cell board w self (r + pawn_direction self, c + 1) = Ok hr ->
  pawn_direction self = - pawn_direction (mkPiece (pid self) Pawn (negb (white self))) /\
  exists reachable,
    get_reachable_cells board fuel w self = Ok reachable /\
    (In (r + pawn_direction self, c) reachable <-> e1 = true) /\
    (In (r + 2 * pawn_direction self, c) reachable <->
       r = pawn_start_row self /\ e1 = true /\ e2 = true) /\
    (In (r + pawn_direction self, c - 1) reachable <-> hl = true) /\
    (In (r + pawn_direction self, c + 1) reachable <-> hr = true) /\
    (forall cell, In cell reachable ->
       cell = (r + pawn_direction self, c) \/
       cell = (r + 2 * pawn_direction self, c) \/
       cell = (r + pawn_direction self, c - 1) \/
       cell = (r + pawn_direction self, c + 1)).
Proof.
  intros Hk Hcell H1 H2 Hl Hr.
  split; [unfold pawn_direction, is_white; cbn; destruct (white self); reflexivity|].
  unfold get_reachable_cells, Pawn_get_reachable_cells. rewrite Hk.
  rewrite (unpack_cell_placed _ _ _ Hcell). cbn.
  unfold pawn_direction, pawn_start_row in *.
  assert (Hd : (if is_white self then 1 else -1) = 1
               \/ (if is_white self then 1 else -1) = -1)
    by (destruct (is_white self); auto).
  set (dir := if is_white self then 1 else -1) in *.
  set (start := if is_white self then 1 else 6) in *.
  rewrite H1; cbn.
  destruct (Z.eqb_spec r start) as [Hs|Hs];
    destruct e1; cbn; rewrite ?H2; cbn; rewrite Hl; cbn; rewrite Hr; cbn;
    destruct e2, hl, hr; cbn;
    (eexists; split; [reflexivity|]);
    cbn [In app];
    repeat split; intros;
    repeat match goal with
           | H : _ \/ _ |- _ => destruct H
           | H : _ /\ _ |- _ => destruct H
           | H : (_, _) = (_, _) |- _ => apply pair_equal_spec in H
           | H : False |- _ => destruct H
           end;
    try congruence; try lia; subst; auto 6.
Qed.

Lemma Pawn_reachable_cells_witness :
  pawn_direction Standard.white_pawn
  = - pawn_direction (mkPiece (pid Standard.white_pawn) Pawn (negb (white Standard.white_pawn))) /\
  exists reachable,
    get_reachable_cells Standard.board 8 Standard.pawn_position Standard.white_pawn
    = Ok reachable /\
    (In (1 + pawn_direction Standard.white_pawn, 1) reachable <-> true = true) /\
    (In (1 + 2 * pawn_direction Standard.white_pawn, 1) reachable <->
       1 = pawn_start_row Standard.white_pawn /\ true = true /\ true = true) /\
    (In (1 + pawn_direction Standard.white_pawn, 1 - 1) reachable <-> false = true) /\
    (In (1 + pawn_direction Standard.white_pawn, 1 + 1) reachable <-> true = true) /\
    (forall cell, In cell reachable ->
       cell = (1 + pawn_direction Standard.white_pawn, 1) \/
       cell = (1 + 2 * pawn_direction Standard.white_pawn, 1) \/
       cell = (1 + pawn_direction Standard.white_pawn, 1 - 1) \/
       cell = (1 + pawn_direction Standard.white_pawn, 1 + 1)).
Proof.
  apply (Pawn_reachable_cells Standard.board 8 Standard.pawn_position
           Standard.white_pawn 1 1 true true false true).
  - reflexivity.
  - vm_compute. reflexivity.
  - vm_compute. reflexivity.
  - vm_compute. reflexivity.
  - vm_compute. reflexivity.
  - vm_compute. reflexivity.
Defined.

Lemma get_reachable_cells_unplaced board fuel w self :
  piece_cell w !! self = None ->
  get_reachable_cells board fuel w self =
  Raise (TypeError "cannot unpack non-iterable NoneType object").
Proof.
  intros Hnone.
  unfold get_reachable_cells, Pawn_get_reachable_cells, Rook_get_reachable_cells,
    Knight_get_reachable_cells, Bishop_get_reachable_cells, Queen_get_reachable_cells,
    King_get_reachable_cells, slide, unpack_cell.
  rewrite Hnone. destruct (kind self); reflexivity.
Qed.

(** C8, as the claim states it, fails: the error of an unplaced rook is
    not an error about the piece being unplaced, but the [TypeError] with
    which Python refuses to unpack [None]. *)
Lemma unplaced_piece_error_is_the_unpacking_error :
  piece_cell Standard.empty_world !! Standard.white_rook = None /\
  get_reachable_cells Standard.board 8 Standard.empty_world Standard.white_rook
  = Raise (TypeError "cannot unpack non-iterable NoneType object") /\
  explicit_unplaced_piece_error
    (TypeError "cannot unpack non-iterable NoneType object") = false.
Proof.
  split; [vm_compute; reflexivity|].
  split; vm_compute; reflexivity.
Qed.

(** C8, amended: for a piece whose cell is null, the generator of every
    kind fails before it asks the board anything, with the [TypeError]
    Python raises when [r, c = self.cell] unpacks the null cell (the code
    has no error of its own for an unplaced piece); it neither goes on with
    undefined coordinates nor returns an empty list. *)
Theorem unplaced_piece_fails board fuel w self :
  piece_cell w !! self = None ->
  get_reachable_cells board fuel w self =
  Raise (TypeError "cannot unpack non-iterable NoneType object") /\
  (forall other : Board,
     get_reachable_cells other fuel w self = get_reachable_cells board fuel w self).
Proof.
  intros Hnone. rewrite !get_reachable_cells_unplaced by assumption.
  split; [reflexivity|]. intros other.
  apply get_reachable_cells_unplaced; assumption.
Qed.

Lemma unplaced_piece_fails_witness :
  get_reachable_cells Standard.board 8 Standard.empty_world Standard.white_rook =
  Raise (TypeError "cannot unpack non-iterable NoneType object") /\
  (forall other : Board,
     get_reachable_cells other 8 Standard.empty_world Standard.white_rook
     = get_reachable_cells Standard.board 8 Standard.empty_world Standard.white_rook).
Proof.
  apply (unplaced_piece_fails Standard.board 8 Standard.empty_world Standard.white_rook).
  vm_compute. reflexivity.
Defined.

(** C9: on one board, for a queen, a rook and a bishop of one colour with
    the same current cell, the queen's reachable-cell list is the rook's
    followed by the bishop's (and the queen's generator returns exactly
    when both of theirs do). *)
Theorem Queen_cells_are_Rook_then_Bishop board fuel w queen rook bishop :
  kind queen = Queen -> kind rook = Rook -> kind bishop = Bishop ->
  white rook = white queen -> white bishop = white queen ->
  piece_cell w !! rook = piece_cell w !! queen ->
  piece_cell w !! bishop = piece_cell w !! queen ->
  hit_by_colour board w ->
  get_reachable_cells board fuel w queen =
    (a ← get_reachable_cells board fuel w rook;
     b ← get_reachable_cells board fuel w bishop;
     Ok (a ++ b)) /\
  (forall a b,
     get_reachable_cells board fuel w rook = Ok a ->
     get_reachable_cells board fuel w bishop = Ok b ->
     get_reachable_cells board fuel w queen = Ok (a ++ b)).
Proof.
  intros Hq Hr Hb Hwr Hwb Hcr Hcb Hhit.
  assert (Heq : get_reachable_cells board fuel w queen =
                (a ← get_reachable_cells board fuel w rook;
                 b ← get_reachable_cells board fuel w bishop;
                 Ok (a ++ b))).
  { unfold get_reachable_cells. rewrite Hq, Hr, Hb.
    unfold Queen_get_reachable_cells, Rook_get_reachable_cells, Bishop_get_reachable_cells.
    change Queen_directions with (Rook_directions ++ Bishop_directions).
    rewrite slide_app.
    rewrite (slide_same_answers board fuel w rook queen Rook_directions Hcr)
      by (intros cell; apply (f_equal call), Hhit, Hwr).
    rewrite (slide_same_answers board fuel w bishop queen Bishop_directions Hcb)
      by (intros cell; apply (f_equal call), Hhit, Hwb).
    reflexivity. }
  split; [exact Heq|].
  intros a b Ha Hb'. rewrite Heq, Ha, Hb'. reflexivity.
Qed.

Lemma Queen_cells_are_Rook_then_Bishop_witness :
  get_reachable_cells Standard.board 8 Standard.queen_position Standard.white_queen =
    (a ← get_reachable_cells Standard.board 8 Standard.queen_position Standard.white_rook;
     b ← get_reachable_cells Standard.board 8 Standard.queen_position Standard.white_bishop;
     Ok (a ++ b)) /\
  (forall a b,
     get_reachable_cells Standard.board 8 Standard.queen_position Standard.white_rook = Ok a ->
     get_reachable_cells Standard.board 8 Standard.queen_position Standard.white_bishop = Ok b ->
     get_reachable_cells Standard.board 8 Standard.queen_position Standard.white_queen
     = Ok (a ++ b)).
Proof.
  apply (Queen_cells_are_Rook_then_Bishop Standard.board 8 Standard.queen_position
           Standard.white_queen Standard.white_rook Standard.white_bishop).
  - reflexivity.
  - reflexivity.
  - reflexivity.
  - reflexivity.
  - reflexivity.
  - vm_compute. reflexivity.
  - vm_compute. reflexivity.
  - intros p q cell Hpq. simpl. unfold Standard.can_hit. rewrite Hpq. reflexivity.
Defined.

(** ** The evaluator *)

Lemma base_values_table (self : Piece) :
  dict_get base_values (class_name self) 0.0%float = base_material (kind self).
Proof. unfold class_name. destruct (kind self); reflexivity. Qed.

Section EvaluatorFacts.

Variable board : Board.



Lemma count_hits_no_fuel w self reachable :
  count_hits board w self reachable <> OutOfFuel.
Proof.
  unfold count_hits. apply for_each_no_fuel. intros cell _ n.
  unfold can_hit_on_cell.
  destruct (board_piece_can_hit_on_cell board w self cell) as [[|]|]; discriminate.
Qed.

(** [evaluate] by the outcome of the generator and of the hit counter. *)
Lemma evaluate_unfold fuel w self :
  evaluate board fuel w self =
  match get_reachable_cells board fuel w self with
  | Ok reachable =>
      let mobility :=
        PrimFloat.mul mobility_weight (float_of_int (Z.of_nat (length reachable))) in
      match count_hits board w self reachable with
      | Ok hit_count =>
          Ok (PrimFloat.add (PrimFloat.add (base_material (kind self)) mobility)
                            (PrimFloat.mul pressure_weight (float_of_int hit_count)))
      | Raise _ =>
          Ok (PrimFloat.add (PrimFloat.add (base_material (kind self)) mobility) 0.0%float)
      | OutOfFuel => OutOfFuel
      end
  | Raise _ =>
      Ok (PrimFloat.add (PrimFloat.add (base_material (kind self)) 0.0%float) 0.0%float)
  | OutOfFuel => OutOfFuel
  end.
Proof.
  unfold evaluate. rewrite base_values_table.
  destruct (get_reachable_cells board fuel w self) as [reachable|e|]; cbn;
    [|reflexivity..].
  destruct (count_hits board w self reachable); reflexivity.
Qed.

End EvaluatorFacts.

Lemma Standard_bounded board w :
  board_cell_is_valid_and_empty board = Standard.valid_and_empty ->
  board_bounded board w 8.
Proof.
  intros Hb cell. unfold cell_is_valid_and_empty. rewrite Hb.
  unfold Standard.valid_and_empty, Standard.is_valid_cell. cbn.
  intros H. injection H as H.
  repeat (apply andb_prop in H as [H ?]). lia.
Qed.



(** C7: [evaluate] never raises, for any piece and board.  On a bounded
    board, with fuel for the rays, it returns a score.  When the generator
    raises (as it does for an unplaced piece), mobility and pressure are
    both zero; when the generator returns and a capture query raises, the
    pressure alone is zero. *)
Theorem evaluate_never_fails board fuel w self :
  (forall e, evaluate board fuel w self <> Raise e) /\
  (forall n, board_bounded board w n -> 0 <= n < Z.of_nat fuel ->
     exists score, evaluate board fuel w self = Ok score) /\
  (forall e, get_reachable_cells board fuel w self = Raise e ->
     evaluate board fuel w self = Ok (base_material (kind self) + 0.0 + 0.0)%float) /\
  (piece_cell w !! self = None ->
     evaluate board fuel w self = Ok (base_material (kind self) + 0.0 + 0.0)%float) /\
  (forall reachable e,
     get_reachable_cells board fuel w self = Ok reachable ->
     count_hits board w self reachable = Raise e ->
     evaluate board fuel w self =
     Ok (base_material (kind self)
         + mobility_weight * float_of_int (Z.of_nat (length reachable))
         + 0.0)%float).
Proof.
  pose proof (get_reachable_cells_terminates board) as Hterm.
  pose proof (get_reachable_cells_unplaced board fuel w self) as Hunplaced.
  rewrite evaluate_unfold.
  destruct (get_reachable_cells board fuel w self) as [reachable|e|] eqn:Hr.
  - pose proof (count_hits_no_fuel board w self reachable) as Hc. cbv zeta.
    destruct (count_hits board w self reachable) as [k|e|] eqn:Hk; [| |contradiction].
    + split; [discriminate|]. split; [eauto|]. split; [discriminate|].
      split; [intros Hnone; specialize (Hunplaced Hnone); discriminate|].
      intros reachable' e' Hr'. injection Hr' as <-. rewrite Hk. discriminate.
    + split; [discriminate|]. split; [eauto|]. split; [discriminate|].
      split; [intros Hnone; specialize (Hunplaced Hnone); discriminate|].
      intros reachable' e' Hr' _. injection Hr' as <-. reflexivity.
  - split; [discriminate|]. split; [eauto|]. split; [reflexivity|].
    split; [reflexivity|]. discriminate.
  - split; [discriminate|].
    split; [intros n Hb Hn; destruct (Hterm n fuel w self Hb Hn Hr)|].
    split; [discriminate|].
    split; [intros Hnone; specialize (Hunplaced Hnone); discriminate|]. discriminate.
Qed.

Lemma evaluate_never_fails_witness :
  (forall e,
     evaluate Standard.failing_hit 9 Standard.rook_position Standard.white_rook <> Raise e) /\
  (exists score,
     evaluate Standard.failing_hit 9 Standard.rook_position Standard.white_rook = Ok score) /\
  evaluate Standard.board 9 Standard.empty_world Standard.white_rook
  = Ok (base_material Rook + 0.0 + 0.0)%float /\
  evaluate Standard.failing_hit 9 Standard.rook_position Standard.white_rook
  = Ok (base_material Rook
        + mobility_weight * float_of_int (Z.of_nat (length [(1, 0); (0, 1); (0, 2); (0, 3)]%Z))
        + 0.0)%float.
Proof.
  destruct (evaluate_never_fails Standard.failing_hit 9 Standard.rook_position
              Standard.white_rook) as (Hnever & Hscore & _ & _ & Hhit).
  destruct (evaluate_never_fails Standard.board 9 Standard.empty_world
              Standard.white_rook) as (_ & _ & _ & Hunplaced & _).
  split; [exact Hnever|].
  split; [apply (Hscore 8); [apply Standard_bounded; reflexivity | simpl; lia]|].
  split; [apply Hunplaced; vm_compute; reflexivity|].
  apply (Hhit [(1, 0); (0, 1); (0, 2); (0, 3)]
              (BoardQueryFailure "'NoneType' object has no attribute 'is_white'"));
    vm_compute; reflexivity.
Defined.

(** ** The generators on the standard board *)

(** A knight in the middle of an empty board has its eight jumps, one in
    the corner has two. *)
Example knight_in_the_middle :
  get_reachable_cells Standard.board 0
    (Standard.place [((3, 3), Standard.white_knight)]) Standard.white_knight
  = Ok [(5, 4); (5, 2); (1, 4); (1, 2); (4, 5); (4, 1); (2, 5); (2, 1)].
Proof. vm_compute. reflexivity. Qed.

Example knight_in_the_corner :
  get_reachable_cells Standard.board 0
    (Standard.place [((0, 0), Standard.white_knight)]) Standard.white_knight
  = Ok [(2, 1); (1, 2)].
Proof. vm_compute. reflexivity. Qed.

(** The king next to the rook's file: two of its five cells are attacked. *)
Example king_reachable_cells :
  get_reachable_cells Standard.board 0 Standard.king_and_rook Standard.white_king
  = Ok [(0, 3); (0, 5); (1, 3); (1, 4); (1, 5)].
Proof. vm_compute. reflexivity. Qed.

Example king_valid_cells :
  result (get_valid_cells Standard.board 8 Standard.white_king Standard.king_and_rook)
  = Ok [(0, 5); (1, 4); (1, 5)].
Proof. vm_compute. reflexivity. Qed.

(** A rook alone on an empty board reaches fourteen cells, and is worth
    [5.0 + 0.05 * 14]; an enemy pawn next to it on its rank shortens the
    ray and adds the pressure term. *)
Example solitary_rook_value :
  evaluate Standard.board 8 (Standard.place [((0, 0), Standard.white_rook)])
    Standard.white_rook
  = Ok (5.0 + mobility_weight * 14.0)%float.
Proof. vm_compute. reflexivity. Qed.

Example rook_value :
  evaluate Standard.board 8 Standard.rook_position Standard.white_rook
  = Ok (5.0 + mobility_weight * 4.0 + pressure_weight * 1.0)%float.
Proof. vm_compute. reflexivity. Qed.

(** The ray loop with too little fuel for the a-file: seven empty cells
    take eight iterations. *)
Example rook_out_of_fuel :
  get_reachable_cells Standard.board 7 (Standard.place [((0, 0), Standard.white_rook)])
    Standard.white_rook
  = OutOfFuel.
Proof. vm_compute. reflexivity. Qed.

(** A pawn off its starting rank has no double step, whatever is empty. *)
Example pawn_off_start_rank :
  get_reachable_cells Standard.board 0
    (Standard.place [((2, 1), Standard.white_pawn)]) Standard.white_pawn
  = Ok [(3, 1)].
Proof. vm_compute. reflexivity. Qed.

Example black_pawn_on_start_rank :
  get_reachable_cells Standard.board 0
    (Standard.place [((6, 1), Standard.black_pawn)]) Standard.black_pawn
  = Ok [(5, 1); (4, 1)].
Proof. vm_compute. reflexivity. Qed.

(** * Further properties of the generators *)

(** A loop whose body only appends cells of some kind appends only cells
    of that kind. *)
Lemma for_each_collects {A} (P : A -> Cell -> Prop) (xs : list A)
      (body : A -> list Cell -> outcome (list Cell)) :
  (forall x acc l, In x xs -> body x acc = Ok l ->
     exists new, l = acc ++ new /\ Forall (P x) new) ->
  forall acc l, for_each xs body acc = Ok l ->
    exists new, l = acc ++ new /\ Forall (fun cell => exists x, In x xs /\ P x cell) new.
Proof.
  induction xs as [|x xs IH]; intros Hb acc l Hl; cbn in Hl.
  - injection Hl as <-. exists []. rewrite app_nil_r. split; [reflexivity|constructor].
  - destruct (body x acc) as [l1| |] eqn:Hx; cbn in Hl; try discriminate.
    destruct (Hb x acc l1 (or_introl eq_refl) Hx) as (new1 & -> & Hnew1).
    destruct (IH (fun y a l' Hy => Hb y a l' (or_intror Hy)) _ _ Hl) as (new2 & -> & Hnew2).
    exists (new1 ++ new2). rewrite app_assoc. split; [reflexivity|].
    apply Forall_app. split.
    + eapply Forall_impl; [exact Hnew1|]. intros cell Hc. exists x.
      split; [left; reflexivity|exact Hc].
    + eapply Forall_impl; [exact Hnew2|]. intros cell (y & Hy & Hc). exists y.
      split; [right; exact Hy|exact Hc].
Qed.

(** A loop whose body appends the cell of its item or nothing returns the
    cells of the items it said yes to. *)
Lemma for_each_selects {A} (xs : list A) (body : A -> list Cell -> outcome (list Cell))
      (cell_of : A -> Cell) (yes : A -> bool) :
  (forall x, In x xs -> forall acc,
     body x acc = Ok (if yes x then acc ++ [cell_of x] else acc)) ->
  forall acc, for_each xs body acc = Ok (acc ++ map cell_of (List.filter yes xs)).
Proof.
  induction xs as [|x xs IH]; intros Hb acc; cbn.
  - rewrite app_nil_r. reflexivity.
  - rewrite (Hb x (or_introl eq_refl)). cbn.
    rewrite IH by (intros; apply Hb; right; assumption).
    destruct (yes x); cbn; [rewrite <- app_assoc|]; reflexivity.
Qed.

Lemma cell_at_not_start r c d i :
  In d Queen_directions -> (1 <= i)%nat -> cell_at r c d i <> (r, c).
Proof.
  intros Hd Hi Heq. unfold cell_at in Heq. apply pair_equal_spec in Heq as [Hr Hc].
  unfold Queen_directions in Hd. cbn [In] in Hd.
  destruct Hd as [<-|[<-|[<-|[<-|[<-|[<-|[<-|[<-|[]]]]]]]]]; cbn [fst snd] in *; lia.
Qed.

Lemma directions_Queen k d : In d (directions k) -> In d Queen_directions.
Proof.
  unfold directions, Rook_directions, Bishop_directions, Queen_directions.
  destruct k; cbn [In]; tauto.
Qed.

Section GeneratorShape.

Variable board : Board.
Variable w : World.
Variable self : Piece.

(** Whatever a ray adds lies on the ray behind a clear path. *)
Lemma ray_loop_collects r c d fuel :
  forall m acc l,
    (1 <= m)%nat ->
    (forall j, (1 <= j < m)%nat ->
       cell_is_valid_and_empty board w (cell_at r c d j) = Ok true) ->
    ray_loop board fuel w self d.1 d.2 (r + Z.of_nat m * d.1) (c + Z.of_nat m * d.2) acc
    = Ok l ->
    exists new, l = acc ++ new /\ Forall (on_clear_ray board w self r c d) new.
Proof.
  induction fuel as [|fuel IH]; intros m acc l Hm Hclear Hl; [discriminate|].
  cbn [ray_loop] in Hl.
  change (r + Z.of_nat m * d.1, c + Z.of_nat m * d.2) with (cell_at r c d m) in Hl.
  destruct (cell_is_valid_and_empty board w (cell_at r c d m)) as [[|]| |] eqn:He;
    cbn in Hl; try discriminate.
  - replace (r + Z.of_nat m * d.1 + d.1) with (r + Z.of_nat (S m) * d.1) in Hl by lia.
    replace (c + Z.of_nat m * d.2 + d.2) with (c + Z.of_nat (S m) * d.2) in Hl by lia.
    apply IH in Hl as (new & -> & Hnew); [|lia|].
    + exists (cell_at r c d m :: new). rewrite <- app_assoc. split; [reflexivity|].
      constructor; [|exact Hnew].
      exists m. repeat split; auto.
    + intros j Hj. destruct (Nat.eq_dec j m) as [->|Hne]; [exact He|].
      apply Hclear. lia.
  - destruct (can_hit_on_cell board w self (cell_at r c d m)) as [[|]| |] eqn:Hh;
      cbn in Hl; try discriminate; injection Hl as <-.
    + exists [cell_at r c d m]. split; [reflexivity|].
      constructor; [|constructor]. exists m. repeat split; auto.
    + exists []. rewrite app_nil_r. split; [reflexivity|constructor].
Qed.

Lemma slide_collects fuel r c ds l :
  piece_cell w !! self = Some (r, c) ->
  slide board fuel w self ds = Ok l ->
  Forall (fun cell => exists d, In d ds /\ on_clear_ray board w self r c d cell) l.
Proof.
  intros Hcell Hl. unfold slide in Hl. rewrite (unpack_cell_placed _ _ _ Hcell) in Hl.
  cbn in Hl.
  apply (for_each_collects (on_clear_ray board w self r c)) in Hl as (new & -> & Hnew);
    [exact Hnew|].
  intros d acc l' _ Hray.
  apply (ray_loop_collects r c d fuel 1 acc l'); [lia|intros j Hj; lia|].
  replace (r + Z.of_nat 1 * d.1) with (r + d.1) by lia.
  replace (c + Z.of_nat 1 * d.2) with (c + d.2) by lia. exact Hray.
Qed.

(** One step of the knight's or the king's loop, by the answers of the
    board. *)
Lemma step_to_answers r c d (enter hit : bool) acc :
  can_enter_cell board w self (offset_cell r c d) = Ok enter ->
  (enter = false -> can_hit_on_cell board w self (offset_cell r c d) = Ok hit) ->
  step_to board w self r c d acc =
  Ok (if enter || hit then acc ++ [offset_cell r c d] else acc).
Proof.
  intros He Hh. unfold step_to, or_else.
  change (r + d.1, c + d.2) with (offset_cell r c d). rewrite He. cbn.
  destruct enter; cbn; [reflexivity|]. rewrite Hh by reflexivity. reflexivity.
Qed.

(** A step adds its cell only on a yes of the board. *)
Lemma step_to_collects r c d acc l :
  step_to board w self r c d acc = Ok l ->
  exists new, l = acc ++ new /\
    Forall (fun cell => cell = offset_cell r c d /\ approved board w self cell) new.
Proof.
  unfold step_to, or_else. change (r + d.1, c + d.2) with (offset_cell r c d).
  intros Hl.
  destruct (can_enter_cell board w self (offset_cell r c d)) as [[|]| |] eqn:He;
    cbn in Hl; try discriminate.
  - injection Hl as <-. exists [offset_cell r c d]. split; [reflexivity|].
    constructor; [|constructor]. split; [reflexivity|]. right. left. exact He.
  - destruct (can_hit_on_cell board w self (offset_cell r c d)) as [[|]| |] eqn:Hh;
      cbn in Hl; try discriminate; injection Hl as <-.
    + exists [offset_cell r c d]. split; [reflexivity|].
      constructor; [|constructor]. split; [reflexivity|]. right. right. exact Hh.
    + exists []. rewrite app_nil_r. split; [reflexivity|constructor].
Qed.

(** The king's two nested loops are one loop over its eight offsets. *)
Lemma King_loop_offsets :
  King_get_reachable_cells board w self =
  (rc ← unpack_cell w self;
   for_each King_offsets (step_to board w self rc.1 rc.2) []).
Proof.
  unfold King_get_reachable_cells.
  destruct (unpack_cell w self) as [[r' c']| |]; [|reflexivity..].
  cbn -[step_to].
  repeat match goal with
         | |- context [step_to board w self r' c' ?d ?acc] =>
             destruct (step_to board w self r' c' d acc); cbn -[step_to];
             try reflexivity
         end.
Qed.

End GeneratorShape.

Section GeneratorSoundness.

Variable board : Board.
Variable w : World.
Variable self : Piece.

Lemma on_clear_ray_approved r c d cell :
  on_clear_ray board w self r c d cell -> approved board w self cell.
Proof.
  intros (i & _ & _ & _ & [He|[_ Hh]]); unfold approved; auto.
Qed.

Lemma on_clear_ray_not_start r c d cell :
  In d Queen_directions -> on_clear_ray board w self r c d cell -> cell <> (r, c).
Proof.
  intros Hd (i & Hi & -> & _). apply cell_at_not_start; assumption.
Qed.

(** Whatever the pawn's generator returns is one of its four cells, and
    the board said yes to it. *)
Lemma Pawn_collects r c l :
  piece_cell w !! self = Some (r, c) ->
  Pawn_get_reachable_cells board w self = Ok l ->
  Forall (fun cell => cell <> (r, c) /\ approved board w self cell) l.
Proof.
  intros Hcell. unfold Pawn_get_reachable_cells.
  rewrite (unpack_cell_placed _ _ _ Hcell). cbn.
  assert (Hd : (if is_white self then 1 else -1) = 1
               \/ (if is_white self then 1 else -1) = -1)
    by (destruct (is_white self); auto).
  set (dir := if is_white self then 1 else -1) in *.
  set (start := if is_white self then 1 else 6).
  assert (Hne : forall k dc, (k = 1 \/ k = 2) -> (r + k * dir, c + dc) <> (r, c)).
  { intros k dc Hk Heq. apply pair_equal_spec in Heq as [Hr _]. lia. }
  pose proof (Hne 1 0 (or_introl eq_refl)) as H1.
  pose proof (Hne 2 0 (or_intror eq_refl)) as H2.
  pose proof (Hne 1 (-1) (or_introl eq_refl)) as Hl.
  pose proof (Hne 1 1 (or_introl eq_refl)) as Hr.
  replace (r + 1 * dir) with (r + dir) in * by lia.
  replace (c + 0) with c in * by lia.
  replace (c + -1) with (c - 1) in * by lia.
  clear Hne Hd.
  destruct (cell_is_valid_and_empty board w (r + dir, c)) as [[|]| |] eqn:He1;
    cbn; try discriminate;
    [destruct (r =? start); cbn;
     [destruct (cell_is_valid_and_empty board w (r + 2 * dir, c)) as [[|]| |] eqn:He2;
      cbn; try discriminate|]|];
    (destruct (can_hit_on_cell board w self (r + dir, c - 1)) as [[|]| |] eqn:Hhl;
       cbn; try discriminate);
    (destruct (can_hit_on_cell board w self (r + dir, c + 1)) as [[|]| |] eqn:Hhr;
       cbn; try discriminate);
    intros Hl'; injection Hl' as <-; cbn [app];
    repeat (constructor; [split; [assumption|unfold approved; auto]|]);
    constructor.
Qed.

Lemma step_loop_collects r c (ds : list (Z * Z)) l :
  (forall d, In d ds -> d <> (0, 0)) ->
  for_each ds (step_to board w self r c) [] = Ok l ->
  Forall (fun cell => cell <> (r, c) /\ approved board w self cell) l.
Proof.
  intros Hds Hl.
  apply (for_each_collects
           (fun d cell => cell = offset_cell r c d /\ approved board w self cell))
    in Hl as (new & -> & Hnew); [|intros d acc l' _; apply step_to_collects].
  cbn. eapply Forall_impl; [exact Hnew|].
  intros cell (d & Hd & -> & Happ). split; [|exact Happ].
  intros Heq. apply pair_equal_spec in Heq as [Hr Hc]. cbn in Hr, Hc.
  apply (Hds d Hd). destruct d as [dr dc]. cbn in *. f_equal; lia.
Qed.

(** Every generator returns only cells other than the piece's own to which
    the board said yes. *)
Lemma get_reachable_cells_collects fuel r c l :
  piece_cell w !! self = Some (r, c) ->
  get_reachable_cells board fuel w self = Ok l ->
  Forall (fun cell => cell <> (r, c) /\ approved board w self cell) l.
Proof.
  intros Hcell. unfold get_reachable_cells.
  assert (Hslide : forall ds, incl ds Queen_directions ->
            slide board fuel w self ds = Ok l ->
            Forall (fun cell => cell <> (r, c) /\ approved board w self cell) l).
  { intros ds Hds Hl. eapply Forall_impl; [exact (slide_collects board w self fuel r c ds l Hcell Hl)|].
    intros cell (d & Hd & Hray). split.
    - eapply on_clear_ray_not_start; [apply Hds, Hd|exact Hray].
    - eapply on_clear_ray_approved; exact Hray. }
  destruct (kind self).
  - apply Pawn_collects; assumption.
  - apply Hslide. intros d Hd. apply (directions_Queen Rook d Hd).
  - unfold Knight_get_reachable_cells. rewrite (unpack_cell_placed _ _ _ Hcell).
    cbn -[for_each]. apply step_loop_collects.
    intros d Hd ->. cbn in Hd. repeat (destruct Hd as [Hd|Hd]; [discriminate|]). exact Hd.
  - apply Hslide. intros d Hd. apply (directions_Queen Bishop d Hd).
  - apply Hslide. apply incl_refl.
  - rewrite King_loop_offsets, (unpack_cell_placed _ _ _ Hcell).
    cbn -[for_each]. apply step_loop_collects.
    intros d Hd ->. cbn in Hd. repeat (destruct Hd as [Hd|Hd]; [discriminate|]). exact Hd.
Qed.

(** A generator that returns has unpacked a cell. *)
Lemma get_reachable_cells_placed fuel l :
  get_reachable_cells board fuel w self = Ok l ->
  exists rc, piece_cell w !! self = Some rc.
Proof.
  intros Hl. destruct (piece_cell w !! self) as [rc|] eqn:Hcell; [eauto|].
  rewrite (get_reachable_cells_unplaced board fuel w self Hcell) in Hl. discriminate.
Qed.

(** With every cell valid and empty a ray never ends. *)
Lemma ray_loop_endless fuel dr dc :
  (forall cell, cell_is_valid_and_empty board w cell = Ok true) ->
  forall nr nc acc, ray_loop board fuel w self dr dc nr nc acc = OutOfFuel.
Proof.
  intros Hall. induction fuel as [|fuel IH]; intros nr nc acc; cbn; [reflexivity|].
  rewrite Hall. cbn. apply IH.
Qed.

End GeneratorSoundness.

(** X1: a placed knight reaches, in the order of its eight jumps, exactly
    the jump cells the board lets it enter or hit on; the capture query is
    made only where the enter query said no, and no other cell is asked
    about. *)
Theorem Knight_reachable_cells board fuel w self r c (enter hit : Cell -> bool) :
  kind self = Knight ->
  piece_cell w !! self = Some (r, c) ->
  (forall d, In d Knight_jumps ->
     can_enter_cell board w self (offset_cell r c d) = Ok (enter (offset_cell r c d)) /\
     (enter (offset_cell r c d) = false ->
      can_hit_on_cell board w self (offset_cell r c d) = Ok (hit (offset_cell r c d)))) ->
  get_reachable_cells board fuel w self =
  Ok (map (offset_cell r c)
          (List.filter (fun d => enter (offset_cell r c d) || hit (offset_cell r c d))
                       Knight_jumps)).
Proof.
  intros Hk Hcell Hq. unfold get_reachable_cells, Knight_get_reachable_cells.
  rewrite Hk, (unpack_cell_placed _ _ _ Hcell). cbn -[for_each Knight_jumps].
  apply (for_each_selects Knight_jumps (step_to board w self r c) (offset_cell r c)
           (fun d => enter (offset_cell r c d) || hit (offset_cell r c d))).
  intros d Hd acc. destruct (Hq d Hd) as [He Hh].
  apply step_to_answers; assumption.
Qed.

Lemma Knight_reachable_cells_witness :
  get_reachable_cells Standard.board 0 Standard.knight_position Standard.white_knight =
  Ok (map (offset_cell 3 3)
          (List.filter
             (fun d => negb (Standard.cell_eqb (offset_cell 3 3 d) (5, 2)) || false)
             Knight_jumps)).
Proof.
  apply (Knight_reachable_cells Standard.board 0 Standard.knight_position
           Standard.white_knight 3 3
           (fun cell => negb (Standard.cell_eqb cell (5, 2))) (fun _ => false)).
  - reflexivity.
  - vm_compute. reflexivity.
  - intros d [<-|[<-|[<-|[<-|[<-|[<-|[<-|[<-|[]]]]]]]]];
      (split; [vm_compute; reflexivity|
              intros H; vm_compute in H; first [discriminate H|vm_compute; reflexivity]]).
Defined.

(** X2: a placed king reaches, in the order of its two nested loops,
    exactly the neighbouring cells the board lets it enter or hit on; its
    own cell is skipped without asking the board. *)
Theorem King_reachable_cells board fuel w self r c (enter hit : Cell -> bool) :
  kind self = King ->
  piece_cell w !! self = Some (r, c) ->
  (forall d, In d King_offsets ->
     can_enter_cell board w self (offset_cell r c d) = Ok (enter (offset_cell r c d)) /\
     (enter (offset_cell r c d) = false ->
      can_hit_on_cell board w self (offset_cell r c d) = Ok (hit (offset_cell r c d)))) ->
  get_reachable_cells board fuel w self =
  Ok (map (offset_cell r c)
          (List.filter (fun d => enter (offset_cell r c d) || hit (offset_cell r c d))
                       King_offsets)).
Proof.
  intros Hk Hcell Hq. unfold get_reachable_cells.
  rewrite Hk, King_loop_offsets, (unpack_cell_placed _ _ _ Hcell).
  cbn -[for_each King_offsets].
  apply (for_each_selects King_offsets (step_to board w self r c) (offset_cell r c)
           (fun d => enter (offset_cell r c d) || hit (offset_cell r c d))).
  intros d Hd acc. destruct (Hq d Hd) as [He Hh].
  apply step_to_answers; assumption.
Qed.

Lemma King_reachable_cells_witness :
  get_reachable_cells Standard.board 0 Standard.king_and_rook Standard.white_king =
  Ok (map (offset_cell 0 4)
          (List.filter
             (fun d => Standard.is_valid_cell (offset_cell 0 4 d) || false)
             King_offsets)).
Proof.
  apply (King_reachable_cells Standard.board 0 Standard.king_and_rook
           Standard.white_king 0 4 Standard.is_valid_cell (fun _ => false)).
  - reflexivity.
  - vm_compute. reflexivity.
  - intros d [<-|[<-|[<-|[<-|[<-|[<-|[<-|[<-|[]]]]]]]]];
      (split; [vm_compute; reflexivity|
              intros H; vm_compute in H; first [discriminate H|vm_compute; reflexivity]]).
Defined.

(** X3: whatever the board answers, every cell a sliding piece's generator
    returns lies on one of the piece's rays, at least one step away, behind
    cells that are all valid and empty, and is itself valid and empty or a
    cell on which the piece can hit: a sliding piece never jumps. *)
Theorem sliding_cells_have_clear_path board fuel w self r c reachable :
  sliding (kind self) = true ->
  piece_cell w !! self = Some (r, c) ->
  get_reachable_cells board fuel w self = Ok reachable ->
  forall cell, In cell reachable ->
    exists d, In d (directions (kind self)) /\ on_clear_ray board w self r c d cell.
Proof.
  intros Hs Hcell Hl cell Hin.
  rewrite get_reachable_cells_sliding in Hl by assumption.
  pose proof (slide_collects board w self fuel r c _ _ Hcell Hl) as Hall.
  rewrite Forall_forall in Hall. apply Hall. apply list_elem_of_In. exact Hin.
Qed.

Lemma sliding_cells_have_clear_path_witness :
  exists d, In d (directions (kind Standard.white_rook)) /\
            on_clear_ray Standard.board Standard.rook_position Standard.white_rook
                         0 0 d (0, 3).
Proof.
  apply (sliding_cells_have_clear_path Standard.board 8 Standard.rook_position
           Standard.white_rook 0 0 [(1, 0); (0, 1); (0, 2); (0, 3)]).
  - reflexivity.
  - vm_compute. reflexivity.
  - vm_compute. reflexivity.
  - simpl. tauto.
Defined.

(** X4: no generator ever returns the cell the piece stands on. *)
Theorem own_cell_is_not_reachable board fuel w self rc reachable :
  piece_cell w !! self = Some rc ->
  get_reachable_cells board fuel w self = Ok reachable ->
  ~ In rc reachable.
Proof.
  intros Hcell Hl Hin. destruct rc as [r c].
  pose proof (get_reachable_cells_collects board w self fuel r c _ Hcell Hl) as Hall.
  rewrite Forall_forall in Hall.
  destruct (Hall (r, c)) as [Hne _]; [apply list_elem_of_In; exact Hin|].
  apply Hne. reflexivity.
Qed.

Lemma own_cell_is_not_reachable_witness :
  piece_cell Standard.knight_position !! Standard.white_knight = Some (3, 3) /\
  ~ In (3, 3) [(5, 4); (1, 4); (1, 2); (4, 5); (4, 1); (2, 5); (2, 1)].
Proof.
  split; [vm_compute; reflexivity|].
  apply (own_cell_is_not_reachable Standard.board 0 Standard.knight_position
           Standard.white_knight (3, 3)).
  - vm_compute. reflexivity.
  - vm_compute. reflexivity.
Defined.

(** X5: every cell a generator returns is a cell the board said yes to:
    valid and empty, enterable by the piece, or a cell on which the piece
    can hit.  A cell about which every query answers no is never
    returned. *)
Theorem reachable_cells_are_approved board fuel w self reachable :
  get_reachable_cells board fuel w self = Ok reachable ->
  forall cell, In cell reachable -> approved board w self cell.
Proof.
  intros Hl cell Hin.
  destruct (get_reachable_cells_placed board w self fuel _ Hl) as [[r c] Hcell].
  pose proof (get_reachable_cells_collects board w self fuel r c _ Hcell Hl) as Hall.
  rewrite Forall_forall in Hall.
  apply Hall. apply list_elem_of_In. exact Hin.
Qed.

Lemma reachable_cells_are_approved_witness :
  approved Standard.board Standard.pawn_position Standard.white_pawn (2, 2).
Proof.
  apply (reachable_cells_are_approved Standard.board 0 Standard.pawn_position
           Standard.white_pawn [(2, 1); (3, 1); (2, 2)]).
  - vm_compute. reflexivity.
  - simpl. tauto.
Defined.

(** X6: on a board whose valid and empty cells lie in an [n] by [n]
    square, the [while True] loops of the sliding pieces end within [n + 1]
    iterations: with that much fuel every generator returns or raises. *)
Theorem generators_end_on_bounded_board board fuel w self n :
  board_bounded board w n ->
  0 <= n < Z.of_nat fuel ->
  (exists reachable, get_reachable_cells board fuel w self = Ok reachable) \/
  (exists e, get_reachable_cells board fuel w self = Raise e).
Proof.
  intros Hb Hn.
  pose proof (get_reachable_cells_terminates board n fuel w self Hb Hn) as Hterm.
  destruct (get_reachable_cells board fuel w self); [left|right|contradiction]; eauto.
Qed.

Lemma generators_end_on_bounded_board_witness :
  (exists reachable,
     get_reachable_cells Standard.board 9 Standard.queen_position Standard.white_queen
     = Ok reachable) \/
  (exists e,
     get_reachable_cells Standard.board 9 Standard.queen_position Standard.white_queen
     = Raise e).
Proof.
  apply (generators_end_on_bounded_board Standard.board 9 Standard.queen_position
           Standard.white_queen 8).
  - apply Standard_bounded. reflexivity.
  - simpl. lia.
Defined.

(** X7: the ray loop has no bound of its own.  On a board that calls every
    cell valid and empty, the generator of a placed sliding piece does not
    come to an end, whatever the number of iterations it is given. *)
Theorem sliding_generator_relies_on_board board fuel w self :
  sliding (kind self) = true ->
  is_Some (piece_cell w !! self) ->
  (forall cell, cell_is_valid_and_empty board w cell = Ok true) ->
  get_reachable_cells board fuel w self = OutOfFuel.
Proof.
  intros Hs [[r c] Hcell] Hall.
  rewrite get_reachable_cells_sliding by assumption.
  unfold slide. rewrite (unpack_cell_placed _ _ _ Hcell). cbn -[for_each].
  destruct (kind self); try discriminate; cbn;
    rewrite (ray_loop_endless board w self fuel _ _ Hall); reflexivity.
Qed.

Lemma sliding_generator_relies_on_board_witness :
  get_reachable_cells Standard.endless 1000 Standard.rook_position Standard.white_rook
  = OutOfFuel.
Proof.
  apply (sliding_generator_relies_on_board Standard.endless 1000 Standard.rook_position
           Standard.white_rook).
  - reflexivity.
  - vm_compute. eauto.
  - intros cell. reflexivity.
Defined.

(** * Further properties of the legality filter *)

(** The grid after one iteration: the mover is written on its recorded
    cell; when the target is that cell, the grid is as before. *)
Lemma after_cycle_cells w self old target :
  cells (after_cycle w self old target) =
  if decide (target = old) then cells w else <[old := self]> (cells w).
Proof.
  unfold after_cycle, simulate, get_cell; cbn. apply map_eq; intros i.
  rewrite !lookup_partial_alter.
  destruct (decide (target = old)) as [->|Hne].
  - repeat case_decide; subst; congruence.
  - rewrite lookup_insert.
    repeat case_decide; subst; congruence.
Qed.

Section FilterOnAnyBoard.

Variable board : Board.

(** One iteration of the loop, on any board. *)
Lemma valid_loop_unfold w self old target rest valid :
  valid_loop board self (Some old) (target :: rest) valid w =
  match board_is_king_check_cached board (simulate w self target) (is_white self) with
  | Returns in_check =>
      let r := valid_loop board self (Some old) rest
                 (if negb in_check then valid ++ [target] else valid)
                 (after_cycle w self old target) in
      mkRun (final r)
            ([ (CallGetCell target, w);
               (CallSetCell target (Some self), simulate w self target);
               (CallIsKingCheck (is_white self), simulate w self target);
               (CallSetCell old (Some self),
                set_cell (simulate w self target) old (Some self));
               (CallSetCell target (get_cell w target), after_cycle w self old target) ]
             ++ trace r)
            (result r)
  | Raises e =>
      mkRun (simulate w self target) (broken_cycle_trace w self target) (Raise e)
  end.
Proof.
  unfold after_cycle, simulate. cbn [valid_loop].
  unfold mbind, Sim_bind, board_get_cell, board_set_cell, board_set_cell_at,
    is_king_check_cached, board_set_cell; cbn [final trace result].
  destruct (board_is_king_check_cached board _ _) as [b|e]; cbn; reflexivity.
Qed.

(** A loop that returns has chosen its cells among the candidates, in their
    order, with five board calls for each candidate, one of them the check
    query. *)
Lemma valid_loop_selects self old targets :
  forall w valid v,
    result (valid_loop board self (Some old) targets valid w) = Ok v ->
    exists chosen,
      v = valid ++ chosen /\ sublist chosen targets /\
      length (trace (valid_loop board self (Some old) targets valid w))
      = (5 * length targets)%nat /\
      List.filter is_check_call
                  (map fst (trace (valid_loop board self (Some old) targets valid w)))
      = repeat (CallIsKingCheck (is_white self)) (length targets).
Proof.
  induction targets as [|t rest IH]; intros w valid v Hv.
  - cbn in Hv. injection Hv as <-. exists []. rewrite app_nil_r.
    repeat split; constructor.
  - rewrite valid_loop_unfold in Hv |- *.
    destruct (board_is_king_check_cached board (simulate w self t) (is_white self))
      as [b|e]; [|discriminate].
    cbv zeta in Hv |- *. cbn [final trace result] in Hv |- *.
    apply IH in Hv as (chosen & -> & Hsub & Hlen & Hchecks).
    destruct b; cbn [negb] in *.
    + exists chosen. split; [reflexivity|]. split; [apply sublist_cons; exact Hsub|].
      split; [cbn [app length]; rewrite Hlen; lia|].
      cbn [app map List.filter fst length repeat is_check_call]. rewrite Hchecks. reflexivity.
    + exists (t :: chosen). split; [rewrite <- app_assoc; reflexivity|].
      split; [apply sublist_skip; exact Hsub|].
      split; [cbn [app length]; rewrite Hlen; lia|].
      cbn [app map List.filter fst length repeat is_check_call]. rewrite Hchecks. reflexivity.
Qed.

(** The grid a returning loop leaves behind, when the mover's recorded
    cell is not among the candidates. *)
Lemma valid_loop_cells self old targets :
  ~ In old targets ->
  forall w valid v,
    result (valid_loop board self (Some old) targets valid w) = Ok v ->
    cells (final (valid_loop board self (Some old) targets valid w)) =
    match targets with
    | [] => cells w
    | _ :: _ => <[old := self]> (cells w)
    end.
Proof.
  induction targets as [|t rest IH]; intros Hold w valid v Hv; [reflexivity|].
  rewrite valid_loop_unfold in Hv |- *.
  destruct (board_is_king_check_cached board (simulate w self t) (is_white self))
    as [b|e]; [|discriminate].
  cbv zeta in Hv |- *. cbn [final trace result] in Hv |- *.
  rewrite (IH (fun H => Hold (or_intror H)) _ _ _ Hv).
  rewrite after_cycle_cells.
  destruct (decide (t = old)) as [->|Hne]; [exfalso; apply Hold; left; reflexivity|].
  destruct rest; [reflexivity|]. apply insert_insert_eq.
Qed.

End FilterOnAnyBoard.

(** X8: when the generator raises (as it does for an unplaced piece),
    [get_valid_cells] raises the same exception before it calls the board:
    no board call is made and the board is left as it was. *)
Theorem get_valid_cells_generator_failure board fuel w self e :
  get_reachable_cells board fuel w self = Raise e ->
  get_valid_cells board fuel self w = mkRun w [] (Raise e).
Proof.
  intros Hr. rewrite get_valid_cells_unfold, Hr. reflexivity.
Qed.

Lemma get_valid_cells_generator_failure_witness :
  get_valid_cells Standard.board 8 Standard.white_rook Standard.empty_world =
  mkRun Standard.empty_world []
        (Raise (TypeError "cannot unpack non-iterable NoneType object")).
Proof.
  apply (get_valid_cells_generator_failure Standard.board 8 Standard.empty_world
           Standard.white_rook).
  vm_compute. reflexivity.
Defined.

(** X9: on any board, a call that returns leaves the grid as it was but
    for the mover's recorded cell: when there was at least one candidate
    the mover stands on that cell afterwards, whoever stood there before
    (the restoring [set_cell(old_cell, self)] does not look). *)
Theorem get_valid_cells_writes_mover_back board fuel w self old valid :
  piece_cell w !! self = Some old ->
  result (get_valid_cells board fuel self w) = Ok valid ->
  exists reachable,
    get_reachable_cells board fuel w self = Ok reachable /\
    cells (final (get_valid_cells board fuel self w)) =
    match reachable with
    | [] => cells w
    | _ :: _ => <[old := self]> (cells w)
    end.
Proof.
  intros Hcell Hv. rewrite get_valid_cells_unfold in Hv |- *.
  destruct (get_reachable_cells board fuel w self) as [reachable| |] eqn:Hr;
    try discriminate.
  exists reachable. split; [reflexivity|].
  rewrite Hcell in Hv |- *.
  apply (valid_loop_cells board self old reachable) with (v := valid); [|exact Hv].
  intros Hin. destruct old as [r c].
  pose proof (get_reachable_cells_collects board w self fuel r c _ Hcell Hr) as Hall.
  rewrite Forall_forall in Hall.
  destruct (Hall (r, c)) as [Hne _]; [apply list_elem_of_In; exact Hin|].
  apply Hne. reflexivity.
Qed.

Lemma get_valid_cells_writes_mover_back_witness :
  exists reachable,
    get_reachable_cells Standard.board 8 Standard.captured_rook Standard.white_rook
    = Ok reachable /\
    cells (final (get_valid_cells Standard.board 8 Standard.white_rook
                    Standard.captured_rook)) =
    match reachable with
    | [] => cells Standard.captured_rook
    | _ :: _ => <[(0, 0) := Standard.white_rook]> (cells Standard.captured_rook)
    end.
Proof.
  apply (get_valid_cells_writes_mover_back Standard.board 8 Standard.captured_rook
           Standard.white_rook (0, 0) [(1, 0); (0, 1); (0, 2); (0, 3)]).
  - vm_compute. reflexivity.
  - vm_compute. reflexivity.
Defined.

(** X10: on any board, the list a returning call gives back is a
    subsequence of the reachable-cell list; the call makes five board calls
    for each candidate, and exactly one of them is the check query, always
    for the mover's own colour. *)
Theorem get_valid_cells_selects_from_reachable board fuel w self valid :
  result (get_valid_cells board fuel self w) = Ok valid ->
  exists reachable,
    get_reachable_cells board fuel w self = Ok reachable /\
    sublist valid reachable /\
    length (trace (get_valid_cells board fuel self w)) = (5 * length reachable)%nat /\
    List.filter is_check_call (map fst (trace (get_valid_cells board fuel self w)))
    = repeat (CallIsKingCheck (is_white self)) (length reachable).
Proof.
  intros Hv. rewrite get_valid_cells_unfold in Hv |- *.
  destruct (get_reachable_cells board fuel w self) as [reachable| |] eqn:Hr;
    try discriminate.
  exists reachable. split; [reflexivity|].
  destruct (get_reachable_cells_placed board w self fuel _ Hr) as [old Hcell].
  rewrite Hcell in Hv |- *.
  destruct (valid_loop_selects board self old reachable w [] valid Hv)
    as (chosen & -> & Hsub & Hlen & Hchecks).
  cbn [app]. auto.
Qed.

Lemma get_valid_cells_selects_from_reachable_witness :
  exists reachable,
    get_reachable_cells Standard.board 8 Standard.king_and_rook Standard.white_king
    = Ok reachable /\
    sublist [(0, 5); (1, 4); (1, 5)] reachable /\
    length (trace (get_valid_cells Standard.board 8 Standard.white_king
                     Standard.king_and_rook))
    = (5 * length reachable)%nat /\
    List.filter is_check_call
      (map fst (trace (get_valid_cells Standard.board 8 Standard.white_king
                         Standard.king_and_rook)))
    = repeat (CallIsKingCheck (is_white Standard.white_king)) (length reachable).
Proof.
  apply (get_valid_cells_selects_from_reachable Standard.board 8 Standard.king_and_rook
           Standard.white_king [(0, 5); (1, 4); (1, 5)]).
  vm_compute. reflexivity.
Defined.

(** * No cell twice *)

Lemma NoDup_map_inj {A B} (f : A -> B) (l : list A) :
  (forall x y, In x l -> In y l -> f x = f y -> x = y) ->
  NoDup l -> NoDup (map f l).
Proof.
  intros Hinj Hl. induction Hl as [|x l Hx Hl IH]; cbn; constructor.
  - intros Hin. apply list_elem_of_In, in_map_iff in Hin as (y & Hy & Hin).
    apply Hx. apply list_elem_of_In.
    rewrite (Hinj x y (or_introl eq_refl) (or_intror Hin) (eq_sym Hy)). exact Hin.
  - apply IH. intros a b Ha Hb. apply Hinj; right; assumption.
Qed.

Lemma NoDup_flat_map {A B} (f : A -> list B) (l : list A) :
  NoDup l ->
  (forall x, In x l -> NoDup (f x)) ->
  (forall x y z, In x l -> In y l -> In z (f x) -> In z (f y) -> x = y) ->
  NoDup (flat_map f l).
Proof.
  intros Hl. induction Hl as [|x l Hx Hl IH]; intros Hf Hdisj; cbn; [constructor|].
  apply NoDup_app. split; [apply Hf; left; reflexivity|]. split.
  - intros z Hz Hz'. apply list_elem_of_In in Hz, Hz'.
    apply in_flat_map in Hz' as (y & Hy & Hz').
    apply Hx. apply list_elem_of_In.
    rewrite (Hdisj x y z (or_introl eq_refl) (or_intror Hy) Hz Hz'). exact Hy.
  - apply IH.
    + intros y Hy. apply Hf. right; exact Hy.
    + intros a b z Ha Hb. apply Hdisj; right; assumption.
Qed.

(** Two cells on the rays of a piece coincide only on the same ray at the
    same distance. *)
Lemma cell_at_inj r c d d' i i' :
  In d Queen_directions -> In d' Queen_directions ->
  (1 <= i)%nat -> (1 <= i')%nat ->
  cell_at r c d i = cell_at r c d' i' -> d = d' /\ i = i'.
Proof.
  intros Hd Hd' Hi Hi' Heq. unfold cell_at in Heq.
  apply pair_equal_spec in Heq as [Hr Hc].
  unfold Queen_directions in Hd, Hd'. cbn [In] in Hd, Hd'.
  destruct Hd as [<-|[<-|[<-|[<-|[<-|[<-|[<-|[<-|[]]]]]]]]];
    destruct Hd' as [<-|[<-|[<-|[<-|[<-|[<-|[<-|[<-|[]]]]]]]]];
    cbn [fst snd] in *;
    first [split; [reflexivity|lia] | exfalso; lia].
Qed.

Lemma ray_candidates_NoDup r c ds n :
  NoDup ds -> incl ds Queen_directions ->
  NoDup (flat_map (fun d => map (cell_at r c d) (seq 1 n)) ds).
Proof.
  intros Hds Hincl. apply NoDup_flat_map; [exact Hds| |].
  - intros d Hd. apply NoDup_map_inj; [|apply NoDup_seq].
    intros i j Hi Hj Heq. apply in_seq in Hi, Hj.
    apply (cell_at_inj r c d d i j) in Heq as [_ ?]; auto; lia.
  - intros d d' cell Hd Hd' Hc Hc'.
    apply in_map_iff in Hc as (i & <- & Hi). apply in_map_iff in Hc' as (j & Heq & Hj).
    apply in_seq in Hi, Hj.
    apply (cell_at_inj r c d' d j i) in Heq as [? _]; auto; lia.
Qed.

Lemma pawn_candidates_NoDup r c dir :
  dir = 1 \/ dir = -1 ->
  NoDup [(r + dir, c); (r + 2 * dir, c); (r + dir, c - 1); (r + dir, c + 1)].
Proof.
  intros Hdir. apply NoDup_ListNoDup.
  repeat (constructor;
          [cbn [In]; intros H;
           repeat (destruct H as [H|H]; [apply pair_equal_spec in H; lia|]); exact H|]).
  constructor.
Qed.

Lemma offset_candidates_NoDup r c ds :
  NoDup ds -> NoDup (map (offset_cell r c) ds).
Proof.
  intros Hds. apply NoDup_map_inj; [|exact Hds].
  intros [a b] [a' b'] _ _ Heq. unfold offset_cell in Heq. cbn in Heq.
  apply pair_equal_spec in Heq as [? ?]. f_equal; lia.
Qed.

(** A loop whose body appends part of its item's candidates appends part
    of all the candidates, in order. *)
Lemma for_each_within {A} (f : A -> list Cell) (xs : list A)
      (body : A -> list Cell -> outcome (list Cell)) :
  (forall x acc l, In x xs -> body x acc = Ok l ->
     exists new, l = acc ++ new /\ sublist new (f x)) ->
  forall acc l, for_each xs body acc = Ok l ->
    exists new, l = acc ++ new /\ sublist new (flat_map f xs).
Proof.
  induction xs as [|x xs IH]; intros Hb acc l Hl; cbn in Hl.
  - injection Hl as <-. exists []. rewrite app_nil_r. split; [reflexivity|constructor].
  - destruct (body x acc) as [l1| |] eqn:Hx; cbn in Hl; try discriminate.
    destruct (Hb x acc l1 (or_introl eq_refl) Hx) as (new1 & -> & Hnew1).
    destruct (IH (fun y a l' Hy => Hb y a l' (or_intror Hy)) _ _ Hl) as (new2 & -> & Hnew2).
    exists (new1 ++ new2). rewrite app_assoc. split; [reflexivity|].
    cbn. apply sublist_app; assumption.
Qed.

Section Distinct.

Variable board : Board.
Variable w : World.
Variable self : Piece.

Lemma ray_loop_within r c d fuel :
  forall m acc l,
    ray_loop board fuel w self d.1 d.2 (r + Z.of_nat m * d.1) (c + Z.of_nat m * d.2) acc
    = Ok l ->
    exists new, l = acc ++ new /\ sublist new (map (cell_at r c d) (seq m fuel)).
Proof.
  induction fuel as [|fuel IH]; intros m acc l Hl; [discriminate|].
  cbn [ray_loop] in Hl.
  change (r + Z.of_nat m * d.1, c + Z.of_nat m * d.2) with (cell_at r c d m) in Hl.
  cbn [seq map].
  destruct (cell_is_valid_and_empty board w (cell_at r c d m)) as [[|]| |];
    cbn in Hl; try discriminate.
  - replace (r + Z.of_nat m * d.1 + d.1) with (r + Z.of_nat (S m) * d.1) in Hl by lia.
    replace (c + Z.of_nat m * d.2 + d.2) with (c + Z.of_nat (S m) * d.2) in Hl by lia.
    apply IH in Hl as (new & -> & Hnew).
    exists (cell_at r c d m :: new). rewrite <- app_assoc. split; [reflexivity|].
    apply sublist_skip. exact Hnew.
  - destruct (can_hit_on_cell board w self (cell_at r c d m)) as [[|]| |];
      cbn in Hl; try discriminate; injection Hl as <-.
    + exists [cell_at r c d m]. split; [reflexivity|].
      apply sublist_skip, sublist_nil_l.
    + exists []. rewrite app_nil_r. split; [reflexivity|apply sublist_nil_l].
Qed.

Lemma slide_within fuel r c ds l :
  piece_cell w !! self = Some (r, c) ->
  slide board fuel w self ds = Ok l ->
  sublist l (flat_map (fun d => map (cell_at r c d) (seq 1 fuel)) ds).
Proof.
  intros Hcell Hl. unfold slide in Hl. rewrite (unpack_cell_placed _ _ _ Hcell) in Hl.
  cbn in Hl.
  apply (for_each_within (fun d => map (cell_at r c d) (seq 1 fuel))) in Hl
    as (new & -> & Hnew); [exact Hnew|].
  intros d acc l' _ Hray. apply (ray_loop_within r c d fuel 1 acc l').
  replace (r + Z.of_nat 1 * d.1) with (r + d.1) by lia.
  replace (c + Z.of_nat 1 * d.2) with (c + d.2) by lia. exact Hray.
Qed.

Lemma step_loop_within r c ds l :
  for_each ds (step_to board w self r c) [] = Ok l ->
  sublist l (map (offset_cell r c) ds).
Proof.
  intros Hl.
  apply (for_each_within (fun d => [offset_cell r c d])) in Hl as (new & -> & Hnew).
  - cbn. replace (map (offset_cell r c) ds)
      with (flat_map (fun d => [offset_cell r c d]) ds); [exact Hnew|].
    clear. induction ds as [|d ds IH]; cbn; [reflexivity|]. rewrite IH. reflexivity.
  - intros d acc l' _ Hstep.
    destruct (step_to_collects board w self r c d acc l' Hstep) as (new & -> & Hnew).
    exists new. split; [reflexivity|].
    destruct new as [|x [|y new]].
    + apply sublist_nil_l.
    + apply Forall_cons in Hnew as [[-> _] _]. apply sublist_skip, sublist_nil_l.
    + exfalso. revert Hstep. unfold step_to.
      destruct (or_else _ _) as [[|]| |]; cbn; intros Heq; try discriminate;
        injection Heq as Heq.
      * apply app_inv_head in Heq. discriminate.
      * rewrite <- (app_nil_r acc) in Heq at 1. apply app_inv_head in Heq. discriminate.
Qed.

Lemma Pawn_within r c l :
  piece_cell w !! self = Some (r, c) ->
  Pawn_get_reachable_cells board w self = Ok l ->
  sublist l [ (r + pawn_direction self, c); (r + 2 * pawn_direction self, c);
              (r + pawn_direction self, c - 1); (r + pawn_direction self, c + 1) ].
Proof.
  intros Hcell. unfold Pawn_get_reachable_cells, pawn_direction.
  rewrite (unpack_cell_placed _ _ _ Hcell). cbn.
  set (dir := if is_white self then 1 else -1).
  set (start := if is_white self then 1 else 6).
  destruct (cell_is_valid_and_empty board w (r + dir, c)) as [[|]| |];
    cbn; try discriminate;
    [destruct (r =? start); cbn;
     [destruct (cell_is_valid_and_empty board w (r + 2 * dir, c)) as [[|]| |];
      cbn; try discriminate|]|];
    (destruct (can_hit_on_cell board w self (r + dir, c - 1)) as [[|]| |];
       cbn; try discriminate);
    (destruct (can_hit_on_cell board w self (r + dir, c + 1)) as [[|]| |];
       cbn; try discriminate);
    intros Hl; injection Hl as <-; cbn [app];
    repeat match goal with
           | |- sublist (?x :: _) (?x :: _) => apply sublist_skip
           | |- sublist _ (_ :: _) => apply sublist_cons
           | |- sublist [] [] => constructor
           end.
Qed.

(** No generator returns a cell twice. *)
Lemma get_reachable_cells_distinct fuel l :
  get_reachable_cells board fuel w self = Ok l -> NoDup l.
Proof.
  intros Hl.
  destruct (get_reachable_cells_placed board w self fuel _ Hl) as [[r c] Hcell].
  assert (Hslide : forall ds, NoDup ds -> incl ds Queen_directions ->
            slide board fuel w self ds = Ok l -> NoDup l).
  { intros ds Hnd Hincl Hs.
    eapply sublist_NoDup; [|exact (slide_within fuel r c ds l Hcell Hs)].
    apply ray_candidates_NoDup; assumption. }
  assert (Hdirs : forall ds : list (Z * Z), bool_decide (NoDup ds) = true -> NoDup ds)
    by (intros ds H; exact (bool_decide_eq_true_1 _ H)).
  unfold get_reachable_cells in Hl. destruct (kind self).
  - eapply sublist_NoDup; [|exact (Pawn_within r c l Hcell Hl)].
    apply pawn_candidates_NoDup. unfold pawn_direction. destruct (is_white self); auto.
  - apply (Hslide Rook_directions); [apply Hdirs; vm_compute; reflexivity| |exact Hl].
    intros d Hd. apply (directions_Queen Rook d Hd).
  - unfold Knight_get_reachable_cells in Hl.
    rewrite (unpack_cell_placed _ _ _ Hcell) in Hl. cbn -[for_each Knight_jumps] in Hl.
    eapply sublist_NoDup; [|exact (step_loop_within r c _ l Hl)].
    apply offset_candidates_NoDup. apply Hdirs. vm_compute. reflexivity.
  - apply (Hslide Bishop_directions); [apply Hdirs; vm_compute; reflexivity| |exact Hl].
    intros d Hd. apply (directions_Queen Bishop d Hd).
  - apply (Hslide Queen_directions); [apply Hdirs; vm_compute; reflexivity| |exact Hl].
    apply incl_refl.
  - rewrite King_loop_offsets, (unpack_cell_placed _ _ _ Hcell) in Hl.
    cbn -[for_each King_offsets] in Hl.
    eapply sublist_NoDup; [|exact (step_loop_within r c _ l Hl)].
    apply offset_candidates_NoDup. apply Hdirs. vm_compute. reflexivity.
Qed.

End Distinct.

(** X11: no generator returns a cell twice: the rays of a sliding piece do
    not meet, the jumps and steps are distinct, and the pawn's four cells
    differ. *)
Theorem reachable_cells_are_distinct board fuel w self reachable :
  get_reachable_cells board fuel w self = Ok reachable ->
  NoDup reachable.
Proof. apply get_reachable_cells_distinct. Qed.

Lemma reachable_cells_are_distinct_witness :
  NoDup [(2, 3); (1, 3); (0, 3); (4, 3); (5, 3); (3, 2); (3, 1); (3, 0); (3, 4); (3, 5);
         (3, 6); (3, 7); (2, 2); (1, 1); (0, 0); (2, 4); (1, 5); (0, 6); (4, 2); (5, 1);
         (6, 0); (4, 4)].
Proof.
  apply (reachable_cells_are_distinct Standard.board 8 Standard.queen_position
           Standard.white_queen).
  vm_compute. reflexivity.
Defined.

(** X12: on any board, the list a returning [get_valid_cells] gives back
    names no cell twice. *)
Theorem valid_cells_are_distinct board fuel w self valid :
  result (get_valid_cells board fuel self w) = Ok valid ->
  NoDup valid.
Proof.
  intros Hv. rewrite get_valid_cells_unfold in Hv.
  destruct (get_reachable_cells board fuel w self) as [reachable| |] eqn:Hr;
    try discriminate.
  destruct (get_reachable_cells_placed board w self fuel _ Hr) as [old Hcell].
  rewrite Hcell in Hv.
  destruct (valid_loop_selects board self old reachable w [] valid Hv)
    as (chosen & -> & Hsub & _).
  cbn [app]. eapply sublist_NoDup; [|exact Hsub].
  exact (get_reachable_cells_distinct board w self fuel reachable Hr).
Qed.

Lemma valid_cells_are_distinct_witness : NoDup [(0, 5); (1, 4); (1, 5)].
Proof.
  apply (valid_cells_are_distinct Standard.board 8 Standard.king_and_rook
           Standard.white_king).
  vm_compute. reflexivity.
Defined.

(** X13: the hit counter of [evaluate] ends between zero and the number of
    cells it was given. *)
Theorem count_hits_bounds board w self reachable hit_count :
  count_hits board w self reachable = Ok hit_count ->
  0 <= hit_count <= Z.of_nat (length reachable).
Proof.
  unfold count_hits.
  assert (Hgen : forall n k,
             for_each reachable
               (fun cell hit_count =>
                  h ← can_hit_on_cell board w self cell;
                  Ok (if h : bool then hit_count + 1 else hit_count)) n = Ok k ->
             n <= k <= n + Z.of_nat (length reachable)).
  { induction reachable as [|cell rest IH]; intros n k Hk; cbn in Hk.
    - injection Hk as <-. cbn. lia.
    - destruct (can_hit_on_cell board w self cell) as [[|]| |]; cbn in Hk;
        try discriminate; apply IH in Hk; cbn [length]; lia. }
  intros Hk. apply Hgen in Hk. lia.
Qed.

Lemma count_hits_bounds_witness :
  0 <= 1 <= Z.of_nat (length [(1, 0); (0, 1); (0, 2); (0, 3)]).
Proof.
  apply (count_hits_bounds Standard.board Standard.rook_position Standard.white_rook
           [(1, 0); (0, 1); (0, 2); (0, 3)] 1).
  vm_compute. reflexivity.
Defined.

(** X14: a class name that is not a key of the base material table gets the
    default of the lookup: [base_values.get(cls_name, 0.0)] is [0.0] for
    it. *)
Theorem base_value_of_unknown_class (cls_name : string) (default : float) :
  ~ In cls_name (map fst base_values) ->
  dict_get base_values cls_name default = default.
Proof.
  intros Hnot. unfold base_values in *. cbn [map fst In] in Hnot. cbn [dict_get].
  repeat match goal with
         | |- context [String.eqb ?k cls_name] =>
             destruct (String.eqb_spec k cls_name) as [Heq|_];
             [exfalso; apply Hnot; rewrite Heq; tauto|]
         end.
  reflexivity.
Qed.

Lemma base_value_of_unknown_class_witness :
  dict_get base_values "Piece" 0.0%float = 0.0%float.
Proof.
  apply (base_value_of_unknown_class "Piece" 0.0%float).
  cbn. intros H. repeat (destruct H as [H|H]; [discriminate H|]). exact H.
Defined.

(** * When the code returns *)

Lemma for_each_no_raise {A S} (xs : list A) (body : A -> S -> outcome S) :
  (forall x, In x xs -> forall s e, body x s <> Raise e) ->
  forall s e, for_each xs body s <> Raise e.
Proof.
  induction xs as [|x xs IH]; intros Hb s e; cbn; [discriminate|].
  destruct (body x s) eqn:Hx; cbn.
  - apply IH. intros; apply Hb; right; assumption.
  - exfalso. exact (Hb x (or_introl eq_refl) s _ Hx).
  - discriminate.
Qed.

Section NoRaise.

Variable board : Board.
Variable w : World.
Variable self : Piece.
Hypothesis answers : board_answers board w self.

Lemma ray_loop_no_raise fuel dr dc :
  forall nr nc acc e, ray_loop board fuel w self dr dc nr nc acc <> Raise e.
Proof.
  induction fuel as [|fuel IH]; intros nr nc acc e; cbn; [discriminate|].
  destruct (answers (nr, nc)) as ((b & ->) & _ & (h & ->)). cbn.
  destruct b; [apply IH|]. destruct h; discriminate.
Qed.

Lemma step_to_no_raise r c d acc e : step_to board w self r c d acc <> Raise e.
Proof.
  unfold step_to, or_else.
  destruct (answers (r + d.1, c + d.2)) as (_ & (b & ->) & (h & ->)). cbn.
  destruct b, h; discriminate.
Qed.

(** A placed piece on a board that answers makes no generator raise. *)
Lemma get_reachable_cells_no_raise fuel e :
  is_Some (piece_cell w !! self) ->
  get_reachable_cells board fuel w self <> Raise e.
Proof.
  intros [[r c] Hcell]. unfold get_reachable_cells.
  assert (Hslide : forall ds, slide board fuel w self ds <> Raise e).
  { intros ds. unfold slide. rewrite (unpack_cell_placed _ _ _ Hcell). cbn -[for_each].
    apply for_each_no_raise. intros d _ acc e'. apply ray_loop_no_raise. }
  destruct (kind self); try apply Hslide.
  - unfold Pawn_get_reachable_cells. rewrite (unpack_cell_placed _ _ _ Hcell). cbn.
    set (dir := if is_white self then 1 else -1).
    destruct (answers (r + dir, c)) as ((e1 & ->) & _ & _).
    destruct (answers (r + 2 * dir, c)) as ((e2 & ->) & _ & _).
    destruct (answers (r + dir, c - 1)) as (_ & _ & (hl & ->)).
    destruct (answers (r + dir, c + 1)) as (_ & _ & (hr & ->)).
    cbn. destruct e1; cbn; [destruct (r =? _); cbn|]; discriminate.
  - unfold Knight_get_reachable_cells. rewrite (unpack_cell_placed _ _ _ Hcell).
    cbn -[for_each]. apply for_each_no_raise. intros; apply step_to_no_raise.
  - rewrite King_loop_offsets, (unpack_cell_placed _ _ _ Hcell).
    cbn -[for_each]. apply for_each_no_raise. intros; apply step_to_no_raise.
Qed.

End NoRaise.

(** X15: for a placed piece, on a bounded board whose occupancy queries
    answer, with fuel beyond the bound, the generator of every kind returns
    a list: it neither raises nor keeps walking. *)
Theorem generators_return board fuel w self n :
  is_Some (piece_cell w !! self) ->
  board_answers board w self ->
  board_bounded board w n ->
  0 <= n < Z.of_nat fuel ->
  exists reachable, get_reachable_cells board fuel w self = Ok reachable.
Proof.
  intros Hcell Hans Hb Hn.
  pose proof (get_reachable_cells_terminates board n fuel w self Hb Hn) as Hterm.
  destruct (get_reachable_cells board fuel w self) as [l|e|] eqn:Hl;
    [eauto| |contradiction].
  exfalso. exact (get_reachable_cells_no_raise board w self Hans fuel e Hcell Hl).
Qed.

Lemma generators_return_witness :
  exists reachable,
    get_reachable_cells Standard.board 9 Standard.queen_position Standard.white_queen
    = Ok reachable.
Proof.
  apply (generators_return Standard.board 9 Standard.queen_position
           Standard.white_queen 8).
  - vm_compute. eauto.
  - intros cell. repeat split; eexists; reflexivity.
  - apply Standard_bounded. reflexivity.
  - simpl. lia.
Defined.

(** X16: on a bounded, consistent board on which the piece stands on its
    cell, with occupancy queries and a check predicate that answer, the
    legality filter returns a list and the board is as before. *)
Theorem get_valid_cells_returns board fuel w self old n :
  board_consistent w ->
  cells w !! old = Some self ->
  board_answers board w self ->
  board_bounded board w n ->
  0 <= n < Z.of_nat fuel ->
  (forall target, exists in_check,
     board_is_king_check_cached board (simulate w self target) (is_white self)
     = Returns in_check) ->
  exists valid,
    result (get_valid_cells board fuel self w) = Ok valid /\
    final (get_valid_cells board fuel self w) = w.
Proof.
  intros Hc Hp Hans Hb Hn Hcheck.
  pose proof (consistent_piece_cell _ _ _ Hc Hp) as Hcell.
  pose proof (get_reachable_cells_terminates board n fuel w self Hb Hn) as Hterm.
  destruct (get_reachable_cells board fuel w self) as [reachable|e|] eqn:Hr;
    [| |contradiction].
  - rewrite (get_valid_cells_run board fuel w self old reachable
               (check_answer board w self) Hc Hp Hr).
    + eexists. split; reflexivity.
    + intros t _. unfold check_answer. destruct (Hcheck t) as [b ->]. reflexivity.
  - exfalso. apply (get_reachable_cells_no_raise board w self Hans fuel e); [|exact Hr].
    rewrite Hcell. eauto.
Qed.

Lemma get_valid_cells_returns_witness :
  exists valid,
    result (get_valid_cells Standard.movement 9 Standard.white_rook Standard.rook_position)
    = Ok valid /\
    final (get_valid_cells Standard.movement 9 Standard.white_rook Standard.rook_position)
    = Standard.rook_position.
Proof.
  apply (get_valid_cells_returns Standard.movement 9 Standard.rook_position
           Standard.white_rook (0, 0) 8).
  - apply board_consistent_decide. vm_compute. reflexivity.
  - vm_compute. reflexivity.
  - intros cell. repeat split; eexists; reflexivity.
  - apply Standard_bounded. reflexivity.
  - simpl. lia.
  - intros target. eexists. reflexivity.
Defined.

(** * The mover's cell attribute during the filter *)




